(** * Zylo: the lexer scaffold, the memory tracker and the console entry point

    A shallow embedding of the C++ sources of the Zylo interpreter front-end
    (lexer.hxx, lexer.cxx, memory.hxx, terminal.cxx, main.cxx) together with
    the properties that its specification states about them.

    Conventions of the embedding:
    - a [std::string] is a [list ascii], one [ascii] per [char];
    - a [size_t] is a [Z] reduced modulo [2 ^ size_t_bits] after every
      arithmetic operation;
    - an [int] that counts up from 0 is a [nat] that is checked against
      [INT_MAX] before every increment; a function in which such an
      increment can overflow returns a [behaviour], [Undefined] when it
      does;
    - a function that mutates a reference argument returns the new value
      of the argument, next to its result when it has one;
    - a function that may throw returns a [cxx_result];
    - a function with effects on the console is a computation in [IO];
    - what the headers declare and no source file defines ([tokenize], the
      constructor, [clear] and [pointers_count] of [Memory]) is modelled from
      the specification and marked so. *)

From Stdlib Require Import ZArith String Ascii List Bool Lia.
From Equations Require Import Equations.
From Equations.Prop Require Import Logic.
Import ListNotations.

Set Implicit Arguments.

(* ===================================================================== *)
(** * Part I: definitions                                                 *)
(* ===================================================================== *)

(** ** The C++ platform *)

(** What the C++ standard leaves to the implementation and the code relies
    on: whether plain [char] is signed, the width of [size_t] and the width
    of [int]. *)
Record platform : Type := Platform {
  char_is_signed : bool;
  size_t_bits : positive;
  int_bits : positive
}.

(** The 64-bit Windows target that terminal.cxx addresses. *)
Definition win64 : platform :=
  {| char_is_signed := true; size_t_bits := 64; int_bits := 32 |}.

(** The largest [int]. *)
Definition INT_MAX (pf : platform) : Z :=
  (2 ^ (Z.pos (int_bits pf) - 1) - 1)%Z.

(** ** Characters and strings *)

Definition std_string : Type := list ascii.

(** A string literal of the source. *)
Definition lit (s : string) : std_string := list_ascii_of_string s.

Definition NUL : ascii := "000"%char.
Definition TAB : ascii := "009"%char.
Definition NEWLINE : ascii := "010"%char.
Definition CR : ascii := "013"%char.
Definition DQUOTE : ascii := "034"%char.
Definition BACKSLASH : ascii := "092"%char.

(** The code unit of a character, 0..255. *)
Definition ord (c : ascii) : Z := Z.of_N (N_of_ascii c).

(** Integral promotion of a [char] to [int]. *)
Definition char_to_int (pf : platform) (c : ascii) : Z :=
  if char_is_signed pf && (128 <=? ord c)%Z then (ord c - 256)%Z else ord c.

Definition size_t_wrap (pf : platform) (z : Z) : Z :=
  (z mod 2 ^ Z.pos (size_t_bits pf))%Z.

(** Exceptions of the standard library that the code can raise. *)
Inductive cxx_exception : Type :=
| out_of_range.

Inductive cxx_result (A : Type) : Type :=
| Returned (a : A)
| Thrown (e : cxx_exception).
Arguments Returned {A} a.
Arguments Thrown {A} e.

(** The outcome of code in which a signed integer can overflow: its
    result, or undefined behaviour. *)
Inductive behaviour (A : Type) : Type :=
| Defined (a : A)
| Undefined.
Arguments Defined {A} a.
Arguments Undefined {A}.

(** One call after another: the second runs on the result of the first. *)
Definition and_then (A B : Type) (m : behaviour A) (f : A -> behaviour B)
    : behaviour B :=
  match m with
  | Defined a => f a
  | Undefined => Undefined
  end.

(** [i + 1] on an [int i >= 0] does not overflow. *)
Definition int_succ_fits (pf : platform) (i : nat) : bool :=
  (Z.of_nat i + 1 <=? INT_MAX pf)%Z.

(** [std::string::substr(pos)]: the suffix from [pos], and
    [std::out_of_range] when [pos > size()]. *)
Definition substr (s : std_string) (pos : Z) : cxx_result std_string :=
  if (pos <=? Z.of_nat (length s))%Z
  then Returned (skipn (Z.to_nat pos) s)
  else Thrown out_of_range.

(** ** extract_identifier (lexer.cxx) *)

Inductive IdentifierType : Type :=
| Alpha
| Numeric
| Symbolic
| Unknown.

Definition IdentifierType_eqb (a b : IdentifierType) : bool :=
  match a, b with
  | Alpha, Alpha | Numeric, Numeric | Symbolic, Symbolic | Unknown, Unknown => true
  | _, _ => false
  end.

Definition skpchrs : list ascii := [" "%char; TAB; NUL].
Definition nonchainablechrs : list ascii := ["("%char; ")"%char; "["%char; "]"%char].

Definition isskpchr (chr : ascii) : bool :=
  existsb (fun skippablechr => Ascii.eqb skippablechr chr) skpchrs.

Definition isunchainablechr (chr : ascii) : bool :=
  existsb (fun nonchainablechr => Ascii.eqb nonchainablechr chr) nonchainablechrs.

Section Scanner.

Variable pf : platform.

(** [chr >= lo && chr <= hi] on promoted characters. *)
Definition char_between (lo hi chr : ascii) : bool :=
  (char_to_int pf lo <=? char_to_int pf chr)%Z
  && (char_to_int pf chr <=? char_to_int pf hi)%Z.

Definition determineidtype (chr : ascii) : IdentifierType :=
  if Ascii.eqb chr "_" || char_between "A" "Z" chr || char_between "a" "z" chr
  then Alpha
  else if Ascii.eqb chr "." || Ascii.eqb chr "-" || char_between "0" "9" chr
       then Numeric
       else Symbolic.

(** The local variables of [extract_identifier] that live across loop
    iterations. *)
Record scan_state : Type := ScanState {
  idtype : IdentifierType;
  nextid : std_string;
  nextidend : Z;
  isstr : bool;
  iscomment : bool
}.

Definition scan_init : scan_state :=
  {| idtype := Unknown; nextid := []; nextidend := 0%Z;
     isstr := false; iscomment := false |}.

(** [nextidend++] *)
Definition incr_end (st : scan_state) : scan_state :=
  {| idtype := idtype st; nextid := nextid st;
     nextidend := size_t_wrap pf (nextidend st + 1);
     isstr := isstr st; iscomment := iscomment st |}.

(** [nextidend += chr]: the promoted character is converted to [size_t]. *)
Definition add_end (chr : ascii) (st : scan_state) : scan_state :=
  {| idtype := idtype st; nextid := nextid st;
     nextidend := size_t_wrap pf (nextidend st + char_to_int pf chr);
     isstr := isstr st; iscomment := iscomment st |}.

(** [nextid += chr] *)
Definition push_chr (chr : ascii) (st : scan_state) : scan_state :=
  {| idtype := idtype st; nextid := nextid st ++ [chr];
     nextidend := nextidend st;
     isstr := isstr st; iscomment := iscomment st |}.

Definition set_idtype (t : IdentifierType) (st : scan_state) : scan_state :=
  {| idtype := t; nextid := nextid st; nextidend := nextidend st;
     isstr := isstr st; iscomment := iscomment st |}.

Definition set_isstr (st : scan_state) : scan_state :=
  {| idtype := idtype st; nextid := nextid st; nextidend := nextidend st;
     isstr := true; iscomment := iscomment st |}.

Definition set_iscomment (st : scan_state) : scan_state :=
  {| idtype := idtype st; nextid := nextid st; nextidend := nextidend st;
     isstr := isstr st; iscomment := true |}.

(** How one iteration of the loop leaves the body. *)
Inductive flow : Type :=
| Next    (* [continue], or the end of the body *)
| Break.

(** The exits of the loop body, named after what the body did. *)
Inductive branch : Type :=
| InComment      (* iscomment: count the character, stop at a newline *)
| Unchainable    (* one of ( ) [ ] *)
| ClosingQuote   (* a quote while isstr *)
| CommentStart   (* # *)
| StringAdvance  (* isstr: nextidend++; nextidend += chr; continue *)
| DoubleMinus    (* a second - after a leading - *)
| NumericStop    (* a numeric run meets - or a non-numeric character *)
| ClassChange    (* the character class changes *)
| Accumulate     (* nextid += chr; nextidend++ *)
| SeparatorStop  (* else-branch with a non-empty nextid *)
| Skip.          (* else-branch with an empty nextid: nextidend++ *)

Definition nonempty (s : std_string) : bool := (0 <? length s)%nat.

(** [nextid += chr;] followed by the [nextidend++] that ends the body. *)
Definition accumulate (chr : ascii) (st : scan_state) : branch * flow * scan_state :=
  (Accumulate, Next, incr_end (push_chr chr st)).

(** The last [if] of the classification: the class of the lexeme and the
    class of the character disagree. *)
Definition class_changes (st : scan_state) (chr : ascii)
    (currentidtype : IdentifierType) : bool :=
  (IdentifierType_eqb (idtype st) Symbolic
     && negb (IdentifierType_eqb currentidtype Symbolic))
  || (negb (IdentifierType_eqb (idtype st) Symbolic)
        && (IdentifierType_eqb currentidtype Symbolic || Ascii.eqb chr "-")).

(** From [IdentifierType currentidtype = determineidtype(chr);] to the end
    of the [if (isskpchr(chr) || isstr)] block. *)
Definition classify (st : scan_state) (chr : ascii) : branch * flow * scan_state :=
  let currentidtype := determineidtype chr in
  if IdentifierType_eqb (idtype st) Unknown
  then accumulate chr (set_idtype currentidtype st)
  else
    if IdentifierType_eqb (idtype st) Numeric
       && (Ascii.eqb (nth 0 (nextid st) NUL) "-" && Ascii.eqb chr "-")
    then (DoubleMinus, Break, push_chr chr (incr_end st))
    else
      if IdentifierType_eqb (idtype st) Numeric
         && (nonempty (nextid st)
             && (Ascii.eqb chr "-"
                 || negb (IdentifierType_eqb currentidtype Numeric)))
      then (NumericStop, Break, st)
      else
        if class_changes st chr currentidtype
        then (ClassChange, Break, st)
        else accumulate chr st.

(** The [if (!iscomment)] block inside [if (isskpchr(chr) || isstr)],
    followed by the classification. *)
Definition quote_comment_string (st : scan_state) (chr : ascii)
    : branch * flow * scan_state :=
  if negb (iscomment st) then
    if Ascii.eqb chr DQUOTE then
      if isstr st
      then (ClosingQuote, Break, incr_end st)
      else (* isstr = true; then [if (isstr)] holds *)
        (StringAdvance, Next, add_end chr (incr_end (set_isstr st)))
    else if Ascii.eqb chr "#" then
      if nonempty (nextid st)
      then (CommentStart, Break, set_iscomment st)
      else (CommentStart, Next, incr_end (set_iscomment st))
    else if isstr st then
      (StringAdvance, Next, add_end chr (incr_end st))
    else classify st chr
  else classify st chr.

(** One iteration of [for (auto chr : line)]. *)
Definition loop_body (st : scan_state) (chr : ascii) : branch * flow * scan_state :=
  if iscomment st then
    (InComment, (if Ascii.eqb chr NEWLINE then Break else Next), incr_end st)
  else if isunchainablechr chr then
    (Unchainable, Break,
     if (nextidend st =? 0)%Z then push_chr chr (incr_end st) else st)
  else if isskpchr chr || isstr st then
    quote_comment_string st chr
  else if nonempty (nextid st) then
    (SeparatorStop, Break, st)
  else
    (Skip, Next, incr_end st).

(** The loop: the state when it is left. *)
Fixpoint scan (st : scan_state) (line : std_string) : scan_state :=
  match line with
  | [] => st
  | chr :: rest =>
      match loop_body st chr with
      | (_, Break, st') => st'
      | (_, Next, st') => scan st' rest
      end
  end.

(** The loop again, recording for every iteration the state it starts in
    and the exit of the body it takes. *)
Fixpoint scan_trace (st : scan_state) (line : std_string)
    : list (scan_state * branch) :=
  match line with
  | [] => []
  | chr :: rest =>
      match loop_body st chr with
      | (b, Break, _) => [(st, b)]
      | (b, Next, st') => (st, b) :: scan_trace st' rest
      end
  end.

(** [extract_identifier(line, separator)]: the returned lexeme and the new
    value of [line]. The separator is not used by the body. *)
Definition extract_identifier (line : std_string) (separator : ascii)
    : cxx_result (std_string * std_string) :=
  let st := scan scan_init line in
  match substr line (nextidend st) with
  | Returned rest => Returned (nextid st, rest)
  | Thrown e => Thrown e
  end.

End Scanner.

(** ** Predicates on the scanner, for the statements below *)

(** The flags of string capture and of comments are both down. *)
Definition flags_down (st : scan_state) : Prop :=
  isstr st = false /\ iscomment st = false.

(** The exits that need one of the two flags, on entry or on exit. *)
Definition flagged (b : branch) : bool :=
  match b with
  | InComment | ClosingQuote | CommentStart | StringAdvance => true
  | _ => false
  end.

(** Every character of the string is a skip character. *)
Definition all_skip (s : std_string) : Prop :=
  Forall (fun c => isskpchr c = true) s.

(** Letters and digits, by code unit. *)
Definition is_letter (c : ascii) : bool :=
  ((65 <=? ord c) && (ord c <=? 90) || (97 <=? ord c) && (ord c <=? 122))%Z.

Definition is_digit (c : ascii) : bool :=
  ((48 <=? ord c) && (ord c <=? 57))%Z.

(** The shapes of a lexeme that holds no text: nothing, one bracket, or a
    run of skip characters. *)
Inductive blank_lexeme (lexeme : std_string) : Prop :=
| blank_empty : lexeme = [] -> blank_lexeme lexeme
| blank_bracket c : In c nonchainablechrs -> lexeme = [c] -> blank_lexeme lexeme
| blank_skips : lexeme <> [] -> Forall (fun c => In c skpchrs) lexeme ->
    blank_lexeme lexeme.

(** ** The token model (lexer.hxx) *)

(** [enum class TokenType]: the enumerators in declaration order. *)
Module TokenType.

Inductive t : Type :=
| Number
| Bool
| String
| Const
| Var
| Func
| EndStatement
| If
| Else
| While
| Equals
| UnaryOperator
| BinaryOperator
| OpenParen
| CloseParen
| OpenBracket
| CloseBracket
| Identifier
| Comment
| EndOfLine
| EndOfFile
| Invalid.

(** The enumerators as the declaration lists them. *)
Definition members : list t :=
  [Number; Bool; String; Const; Var; Func; EndStatement; If; Else; While;
   Equals; UnaryOperator; BinaryOperator; OpenParen; CloseParen;
   OpenBracket; CloseBracket; Identifier; Comment; EndOfLine; EndOfFile;
   Invalid].

(** [static_cast<int>]: no enumerator has an initialiser, so the first is 0
    and each next one is one more. *)
Definition ordinal (x : t) : nat :=
  match x with
  | Number => 0 | Bool => 1 | String => 2 | Const => 3 | Var => 4
  | Func => 5 | EndStatement => 6 | If => 7 | Else => 8 | While => 9
  | Equals => 10 | UnaryOperator => 11 | BinaryOperator => 12
  | OpenParen => 13 | CloseParen => 14 | OpenBracket => 15
  | CloseBracket => 16 | Identifier => 17 | Comment => 18
  | EndOfLine => 19 | EndOfFile => 20 | Invalid => 21
  end.

End TokenType.

(** [struct Token] *)
Record Token : Type := MkToken {
  type : TokenType.t;
  value : std_string
}.

(** [struct TokenIdentifier] *)
Record TokenIdentifier : Type := MkTokenIdentifier {
  indentifiers : list std_string
}.

(** The braced initialisers of [TokenIdentifier::tk_identifiers], one per
    line of lexer.cxx. *)
Definition tk_identifiers_initializers : list TokenIdentifier :=
  map (fun spellings => MkTokenIdentifier (map lit spellings))
    [ [];                                      (* Number *)
      [];                                      (* Bool *)
      [];                                      (* String *)
      ["const"];                               (* Const *)
      ["zylo"];                                (* Var *)
      ["func"];                                (* Func *)
      ["over"];                                (* EndStatement *)
      ["if"];                                  (* If *)
      ["else"];                                (* Else *)
      ["while"];                               (* While *)
      ["="];                                   (* Equals *)
      ["++"; "--"; "!"];                       (* UnaryOperator *)
      ["+"; "-"; "*"; "/"; "%"; "=="; "!="; ">"; "<"; ">="; "<="; "**";
       "&&"; "||"];                            (* BinaryOperator *)
      ["("];                                   (* OpenParen *)
      [")"];                                   (* CloseParen *)
      ["["];                                   (* OpenBracket *)
      ["]"];                                   (* CloseBracket *)
      [];                                      (* Identifier *)
      ["#"];                                   (* Comment *)
      [String NEWLINE EmptyString; String CR EmptyString; ";"]
                                               (* EndOfLine *)
    ]%string.

(** Aggregate initialisation of an array of [size] elements: the elements
    without an initialiser are value-initialised. *)
Definition array_init (A : Type) (size : nat) (value_init : A)
    (initializers : list A) : list A :=
  firstn size initializers ++ repeat value_init (size - length initializers).

(** [TokenIdentifier::tk_identifiers[static_cast<int>(TokenType::Invalid)]] *)
Definition tk_identifiers : list TokenIdentifier :=
  array_init (TokenType.ordinal TokenType.Invalid) (MkTokenIdentifier [])
    tk_identifiers_initializers.

(** [tk_identifiers[static_cast<int>(t)].indentifiers] *)
Definition tk_spellings (t : TokenType.t) : list std_string :=
  indentifiers (nth (TokenType.ordinal t) tk_identifiers (MkTokenIdentifier [])).

(** The token-spelling table as the specification prints it, row by row. *)
Definition spec_spelling_table (t : TokenType.t) : list std_string :=
  map lit
    match t with
    | TokenType.Number | TokenType.Bool | TokenType.String
    | TokenType.Identifier => []
    | TokenType.Const => ["const"]
    | TokenType.Var => ["zylo"]
    | TokenType.Func => ["func"]
    | TokenType.EndStatement => ["over"]
    | TokenType.If => ["if"]
    | TokenType.Else => ["else"]
    | TokenType.While => ["while"]
    | TokenType.Equals => ["="]
    | TokenType.UnaryOperator => ["++"; "--"; "!"]
    | TokenType.BinaryOperator =>
        ["+"; "-"; "*"; "/"; "%"; "=="; "!="; ">"; "<"; ">="; "<="; "**";
         "&&"; "||"]
    | TokenType.OpenParen => ["("]
    | TokenType.CloseParen => [")"]
    | TokenType.OpenBracket => ["["]
    | TokenType.CloseBracket => ["]"]
    | TokenType.Comment => ["#"]
    | TokenType.EndOfLine =>
        [String NEWLINE EmptyString; String CR EmptyString; ";"]
    | TokenType.EndOfFile => []
    | TokenType.Invalid => []
    end%string.

(** ** The escape transforms (lexer.cxx) *)

(** [string[idx]] *)
Definition string_at (s : std_string) (idx : nat) : ascii := nth idx s NUL.

(** [string[idx] = c], for [idx < size()] *)
Definition string_set (s : std_string) (idx : nat) (c : ascii) : std_string :=
  firstn idx s ++ c :: skipn (S idx) s.

(** [string.erase(string.begin() + idx)], for [idx < size()] *)
Definition string_erase (s : std_string) (idx : nat) : std_string :=
  firstn idx s ++ skipn (S idx) s.

(** [string.insert(idx, t)], for [idx <= size()] *)
Definition string_insert (s : std_string) (idx : nat) (t : std_string)
    : std_string :=
  firstn idx s ++ t ++ skipn idx s.

(** The body of the loop of [process_escape_characters] at index
    [chridx < size()], where [chridx + 1] does not overflow: the new value
    of the string. The comparisons of the [int] index with [size()] and
    with [size() - 1] are comparisons of their values, the index being
    between 0 and [INT_MAX]. *)
Definition process_body (s : std_string) (chridx : nat) : std_string :=
  let chr := string_at s chridx in
  if Ascii.eqb chr BACKSLASH && (chridx <? length s - 1) then
    let nextchr := string_at s (chridx + 1) in
    let replchr :=
      if Ascii.eqb nextchr "n" then NEWLINE
      else if Ascii.eqb nextchr "t" then TAB
      else " "%char in
    if negb (Ascii.eqb replchr " ")
    then string_erase (string_set s chridx replchr) (chridx + 1)
    else s
  else s.

Lemma process_body_length (s : std_string) (chridx : nat) :
  chridx < length s ->
  length (process_body s chridx) <= length s.
Proof.
  intros Hlt. unfold process_body.
  destruct (Ascii.eqb (string_at s chridx) BACKSLASH && (chridx <? length s - 1))
    eqn:Hesc; [|lia].
  apply andb_true_iff in Hesc as [_ Hidx]. apply Nat.ltb_lt in Hidx.
  match goal with |- context [negb ?b] => destruct (negb b) end; [|lia].
  unfold string_erase, string_set.
  repeat (rewrite ?length_app, ?length_firstn, ?length_skipn; cbn [length]).
  lia.
Qed.

(** [for (int chridx = ...; chridx < string.size(); chridx++)] of
    [process_escape_characters], from the index [chridx] on. An iteration
    at [chridx = INT_MAX] overflows, in [string[chridx + 1]] or at the
    latest in [chridx++]. *)
Equations? process_loop (pf : platform) (s : std_string) (chridx : nat)
    : behaviour std_string by wf (length s - chridx) lt :=
  process_loop pf s chridx with inspect (chridx <? length s) := {
    | exist _ true Hlt =>
        if int_succ_fits pf chridx
        then process_loop pf (process_body s chridx) (chridx + 1)
        else Undefined;
    | exist _ false _ => Defined s }.
Proof.
  apply Nat.ltb_lt in Hlt.
  pose proof (process_body_length s Hlt). lia.
Qed.

(** [process_escape_characters(string)]: the new value of [string]. *)
Definition process_escape_characters (pf : platform) (s : std_string)
    : behaviour std_string :=
  process_loop pf s 0.

(** The body of the loop of [unprocess_escape_characters] at index
    [chridx < size()]: the new string and the index after the body, which
    is [chridx + 1] after the [chridx++] of the body. *)
Definition unprocess_body (s : std_string) (chridx : nat) : std_string * nat :=
  let chr := string_at s chridx in
  let inststr :=
    if Ascii.eqb chr NEWLINE then [BACKSLASH; "n"%char]
    else if Ascii.eqb chr TAB then [BACKSLASH; "t"%char]
    else [] in
  if nonempty inststr
  then (string_insert (string_erase s chridx) chridx inststr, chridx + 1)
  else (s, chridx).

Lemma unprocess_body_measure (s : std_string) (chridx : nat) :
  chridx < length s ->
  length (fst (unprocess_body s chridx)) - (snd (unprocess_body s chridx) + 1)
  < length s - chridx.
Proof.
  intros Hlt. unfold unprocess_body.
  destruct (Ascii.eqb (string_at s chridx) NEWLINE);
    [|destruct (Ascii.eqb (string_at s chridx) TAB)];
    cbn [nonempty length Nat.ltb Nat.leb fst snd];
    unfold string_insert, string_erase;
    repeat (rewrite ?length_app, ?length_firstn, ?length_skipn; cbn [length]);
    lia.
Qed.

(** The loop of [unprocess_escape_characters], from the index [chridx] on.
    The [chridx++] of the loop, on the index that the body leaves,
    overflows at [INT_MAX]; when the [chridx++] of the body has overflowed
    before it, the index that the body leaves is past [INT_MAX] too. *)
Equations? unprocess_loop (pf : platform) (s : std_string) (chridx : nat)
    : behaviour std_string by wf (length s - chridx) lt :=
  unprocess_loop pf s chridx with inspect (chridx <? length s) := {
    | exist _ true Hlt =>
        if int_succ_fits pf (snd (unprocess_body s chridx))
        then unprocess_loop pf (fst (unprocess_body s chridx))
                            (snd (unprocess_body s chridx) + 1)
        else Undefined;
    | exist _ false _ => Defined s }.
Proof.
  apply Nat.ltb_lt in Hlt. apply (unprocess_body_measure s Hlt).
Qed.

(** [unprocess_escape_characters(string)]: the new value of [string]. *)
Definition unprocess_escape_characters (pf : platform) (s : std_string)
    : behaviour std_string :=
  unprocess_loop pf s 0.

(** ** The escape transforms as one pass from left to right *)

(** What the body of the loop of [process_escape_characters] makes of the
    character [chr] and of the text [rest] after it. *)
Definition collapse_head (chr : ascii) (rest : std_string) : std_string :=
  if Ascii.eqb chr BACKSLASH then
    match rest with
    | nextchr :: rest' =>
        if Ascii.eqb nextchr "n" then NEWLINE :: rest'
        else if Ascii.eqb nextchr "t" then TAB :: rest'
        else chr :: rest
    | [] => chr :: rest
    end
  else chr :: rest.

(** A backslash followed by [n] or [t] becomes a newline or a tab. *)
Fixpoint collapse_escapes (s : std_string) : std_string :=
  match s with
  | [] => []
  | chr :: rest =>
      if Ascii.eqb chr BACKSLASH then
        match rest with
        | nextchr :: rest' =>
            if Ascii.eqb nextchr "n" then NEWLINE :: collapse_escapes rest'
            else if Ascii.eqb nextchr "t" then TAB :: collapse_escapes rest'
            else chr :: collapse_escapes rest
        | [] => [chr]
        end
      else chr :: collapse_escapes rest
  end.

(** What the body of the loop of [unprocess_escape_characters] puts in the
    place of the character [chr]. *)
Definition expand_chr (chr : ascii) : std_string :=
  if Ascii.eqb chr NEWLINE then [BACKSLASH; "n"%char]
  else if Ascii.eqb chr TAB then [BACKSLASH; "t"%char]
  else [chr].

(** A newline or a tab becomes a backslash followed by [n] or [t]. *)
Definition expand_escapes (s : std_string) : std_string :=
  flat_map expand_chr s.

(** ** tokenize (declared in lexer.hxx) *)

Section Tokenizer.

Variable pf : platform.

(** [determine_token_type] is declared in lexer.hxx and not defined in
    lexer.cxx; [tokenize] takes it as it comes. *)
Variable determine_token_type : std_string -> Token.

(** Modelled from the spec: the body of [tokenize], which lexer.hxx only
    declares. "Drives [extract_identifier] repeatedly over the full source
    until it is exhausted, classifies each non-empty lexeme via
    [determine_token_type], appends the resulting tokens to an output
    sequence, and appends a final [EndOfFile] token with empty value once
    input is exhausted."  One unit of [fuel] is spent per call of
    [extract_identifier]; [None] means that the fuel ran out. *)
Fixpoint tokenize_loop (fuel : nat) (line : std_string) (tokens : list Token)
    {struct fuel} : option (cxx_result (list Token)) :=
  match line with
  | [] => Some (Returned (tokens ++ [MkToken TokenType.EndOfFile []]))
  | _ :: _ =>
      match fuel with
      | 0 => None
      | S fuel' =>
          match extract_identifier pf line " " with
          | Thrown e => Some (Thrown e)
          | Returned (lexeme, rest) =>
              tokenize_loop fuel' rest
                (if nonempty lexeme
                 then tokens ++ [determine_token_type lexeme]
                 else tokens)
          end
      end
  end.

(** Modelled from the spec: [tokenize(src)], with one unit of fuel per
    character of the source. *)
Definition tokenize (src : std_string) : option (cxx_result (list Token)) :=
  tokenize_loop (length src) src [].

End Tokenizer.

(** ** The memory tracker (memory.hxx) *)

Module Memory.

Section Tracker.

(** The types that [create<Type>] is instantiated at. *)
Variable cxx_type : Type.

Definition pointer : Type := N.

(** The free store: the live allocations, each with the type of the object
    that [new] constructed there, latest first. *)
Definition free_store : Type := list (pointer * cxx_type).

(** An address that no live allocation has, and that is not null. *)
Definition fresh_address (fs : free_store) : pointer :=
  N.succ (fold_right N.max 0%N (map fst fs)).

(** [new Type()] *)
Definition new (T : cxx_type) (fs : free_store) : pointer * free_store :=
  let p := fresh_address fs in (p, (p, T) :: fs).

(** [delete pointer] *)
Definition delete (p : pointer) (fs : free_store) : free_store :=
  filter (fun a => negb (N.eqb (fst a) p)) fs.

(** [class Memory]: its one data member. *)
Record t : Type := MkMemory {
  pointers : list pointer
}.

(** Modelled from the spec: the constructor [Memory()], which memory.hxx
    only declares. "Starting from a newly constructed Memory tracker": the
    tracked list is empty. *)
Definition Memory : t := {| pointers := [] |}.

(** [create<Type>()]: the returned pointer, the tracker and the free store
    after the call. *)
Definition create (T : cxx_type) (m : t) (fs : free_store)
    : pointer * (t * free_store) :=
  let (pointer, fs') := new T fs in
  (pointer, ({| pointers := pointers m ++ [pointer] |}, fs')).

(** Modelled from the spec: [clear()], which memory.hxx only declares.
    "For every tracked address, releases the underlying storage, then
    empties the tracked list." *)
Definition clear (m : t) (fs : free_store) : t * free_store :=
  ({| pointers := [] |}, fold_left (fun fs' p => delete p fs') (pointers m) fs).

(** Modelled from the spec: [pointers_count()], which memory.hxx only
    declares. "Returns the number of currently tracked addresses; pure, no
    side effect." *)
Definition pointers_count (m : t) : Z := Z.of_nat (length (pointers m)).

(** A run of [create] calls, one per type of the list, with nothing in
    between. *)
Fixpoint create_all (Ts : list cxx_type) (m : t) (fs : free_store)
    : t * free_store :=
  match Ts with
  | [] => (m, fs)
  | T :: Ts' => let '(_, (m', fs')) := create T m fs in create_all Ts' m' fs'
  end.

End Tracker.

End Memory.

(** ** The console (terminal.cxx) and the entry point (main.cxx) *)

(** What the process does to its surroundings, in order. *)
Inductive event : Type :=
| SetConsoleTitleA (title : std_string)
| System (command : std_string)
| SetConsoleColor (color : Z)
| Cout (text : std_string)
| Cerr (text : std_string).

(** The surroundings of the process: what is left to read on standard
    input, and what it has done so far. *)
Record world : Type := World {
  stdin : std_string;
  events : list event
}.

(** A computation with effects on the world. *)
Definition IO (A : Type) : Type := world -> A * world.

Definition ret (A : Type) (a : A) : IO A := fun w => (a, w).

Definition bind (A B : Type) (m : IO A) (k : A -> IO B) : IO B :=
  fun w => let (a, w') := m w in k a w'.

Notation "x <- m ;; k" := (bind m (fun x => k))
  (at level 61, m at next level, right associativity).
Notation "m ;; k" := (bind m (fun _ => k))
  (at level 61, right associativity).

Definition emit (e : event) : IO unit :=
  fun w => (tt, {| stdin := stdin w; events := events w ++ [e] |}).

(** [std::endl] *)
Definition endl : std_string := [NEWLINE].

(** The characters up to the first newline, and what follows that newline. *)
Fixpoint split_line (s : std_string) : std_string * std_string :=
  match s with
  | [] => ([], [])
  | c :: rest =>
      if Ascii.eqb c NEWLINE then ([], rest)
      else let (l, rest') := split_line rest in (c :: l, rest')
  end.

(** [std::getline(std::cin, input)] *)
Definition getline : IO std_string :=
  fun w =>
    let (l, rest) := split_line (stdin w) in
    (l, {| stdin := rest; events := events w |}).

(** All that was written to [std::cout]. *)
Definition stdout (w : world) : std_string :=
  flat_map (fun e => match e with Cout text => text | _ => [] end) (events w).

(** All that was written to [std::cerr]. *)
Definition stderr (w : world) : std_string :=
  flat_map (fun e => match e with Cerr text => text | _ => [] end) (events w).

(** constants.hxx *)
Definition DEFAULT_MEMORY_BUFFER_SIZE : Z := 1024 * 1024.
Definition ZYLO_VERSION : std_string := lit "1.0.0".
Definition DEFAULT_LANGUAGE_NAME : std_string := lit "Zylo".

(** The character attributes of the Windows console. *)
Definition FOREGROUND_BLUE : Z := 1.
Definition FOREGROUND_GREEN : Z := 2.
Definition FOREGROUND_RED : Z := 4.

Module zylo_terminal.

Section Colors.

(** The colour constants of color.hxx, whatever their values. *)
Variables GREEN WHITE : Z.

Definition info : IO Z :=
  emit (SetConsoleColor GREEN) ;;
  emit (Cout DEFAULT_LANGUAGE_NAME) ;; emit (Cout (lit " ")) ;;
  emit (Cout ZYLO_VERSION) ;; emit (Cout endl) ;;
  emit (SetConsoleColor WHITE) ;;
  emit (Cout (lit "Type 'exit' to quit the interpreter.")) ;;
  emit (Cout endl) ;;
  emit (SetConsoleColor WHITE) ;;
  emit (Cout (lit "Type 'help' for a list of available commands.")) ;;
  emit (Cout endl) ;;
  emit (SetConsoleColor
          (Z.lor (Z.lor FOREGROUND_RED FOREGROUND_GREEN) FOREGROUND_BLUE)) ;;
  ret 0%Z.

Definition init : IO Z :=
  emit (SetConsoleTitleA DEFAULT_LANGUAGE_NAME) ;;
  emit (System (lit "cls")) ;;
  _ <- info ;;
  ret 0%Z.

Definition input (prompt : std_string) : IO std_string :=
  emit (Cout prompt) ;;
  emit (SetConsoleColor
          (Z.lor (Z.lor FOREGROUND_RED FOREGROUND_GREEN) FOREGROUND_BLUE)) ;;
  input <- getline ;;
  ret input.

End Colors.

End zylo_terminal.

(** [int main()]: the exit status. *)
Definition main (GREEN WHITE : Z) : IO Z :=
  status <- zylo_terminal.init GREEN WHITE ;;
  if negb (status =? 0)%Z then
    emit (Cerr (lit "Error initializing terminal.")) ;; emit (Cerr endl) ;;
    ret 1%Z
  else
    userCommand <- zylo_terminal.input (lit ">>> ") ;;
    emit (Cout (lit "You entered: ")) ;; emit (Cout userCommand) ;;
    emit (Cout endl) ;;
    ret 0%Z.

(** What [info] writes to [std::cout]. *)
Definition banner : std_string :=
  DEFAULT_LANGUAGE_NAME ++ lit " " ++ ZYLO_VERSION ++ endl
  ++ lit "Type 'exit' to quit the interpreter." ++ endl
  ++ lit "Type 'help' for a list of available commands." ++ endl.

(** ** Reference forms for further statements *)

(** A character that is neither a skip character nor a bracket. *)
Definition istextchr (chr : ascii) : bool :=
  negb (isskpchr chr) && negb (isunchainablechr chr).

(** The longest prefix whose characters satisfy [p], and what follows it. *)
Fixpoint take_while (p : ascii -> bool) (s : std_string) : std_string :=
  match s with
  | [] => []
  | c :: rest => if p c then c :: take_while p rest else []
  end.

Fixpoint drop_while (p : ascii -> bool) (s : std_string) : std_string :=
  match s with
  | [] => []
  | c :: rest => if p c then drop_while p rest else s
  end.

(** A bracket at the head of the line, alone; or else, after the text at
    the head of the line, the run of skip characters that follows it. The
    second component is the line after that lexeme. *)
Definition first_blank_run (line : std_string) : std_string * std_string :=
  match line with
  | c :: rest =>
      if isunchainablechr c then ([c], rest)
      else
        let after_text := drop_while istextchr line in
        (take_while isskpchr after_text, drop_while isskpchr after_text)
  | [] => ([], [])
  end.

(** The class of a character, read from its code unit. *)
Definition class_of_code_unit (chr : ascii) : IdentifierType :=
  if Ascii.eqb chr "_" || is_letter chr then Alpha
  else if Ascii.eqb chr "." || Ascii.eqb chr "-" || is_digit chr then Numeric
  else Symbolic.

(** [blank_lexeme], decided. *)
Definition blank_lexemeb (lexeme : std_string) : bool :=
  match lexeme with
  | [] => true
  | [c] => isunchainablechr c || isskpchr c
  | _ => forallb isskpchr lexeme
  end.

(** The string has a backslash with [n] or [t] right after it. *)
Fixpoint has_escape (s : std_string) : bool :=
  match s with
  | [] => false
  | c :: rest =>
      Ascii.eqb c BACKSLASH
      && match rest with
         | d :: _ => Ascii.eqb d "n" || Ascii.eqb d "t"
         | [] => false
         end
      || has_escape rest
  end.

(** A newline or a tab. *)
Definition is_nl_tab (c : ascii) : bool :=
  Ascii.eqb c NEWLINE || Ascii.eqb c TAB.

(** The length of the string once every newline and every tab is two
    characters. *)
Definition expanded_length (s : std_string) : nat :=
  length s + length (filter is_nl_tab s).

(** The string starts with [n] or with [t]. *)
Definition starts_escape_letter (s : std_string) : bool :=
  match s with
  | d :: _ => Ascii.eqb d "n" || Ascii.eqb d "t"
  | [] => false
  end.

(* ===================================================================== *)
(** * Part II: properties                                                 *)
(* ===================================================================== *)

(** A character that is none of the characters of a literal. *)
Ltac not_in_literal :=
  let H := fresh "H" in
  cbn; intros H; repeat (destruct H as [H | H]; [discriminate H|]); exact H.

(** ** Arithmetic of [size_t] *)

Lemma size_t_modulus_gt_1 (pf : platform) : (1 < 2 ^ Z.pos (size_t_bits pf))%Z.
Proof. apply Z.pow_gt_1; lia. Qed.

Lemma size_t_wrap_range (pf : platform) (z : Z) :
  (0 <= size_t_wrap pf z < 2 ^ Z.pos (size_t_bits pf))%Z.
Proof.
  unfold size_t_wrap. apply Z.mod_pos_bound.
  pose proof (size_t_modulus_gt_1 pf). lia.
Qed.

Lemma size_t_wrap_le (pf : platform) (z : Z) :
  (0 <= z)%Z -> (size_t_wrap pf z <= z)%Z.
Proof.
  intros Hz. unfold size_t_wrap. apply Z.mod_le; [assumption|].
  pose proof (size_t_modulus_gt_1 pf). lia.
Qed.

Lemma size_t_wrap_small (pf : platform) (z : Z) :
  (0 <= z < 2 ^ Z.pos (size_t_bits pf))%Z -> size_t_wrap pf z = z.
Proof. intros Hz. unfold size_t_wrap. apply Z.mod_small. assumption. Qed.

Lemma size_t_wrap_1 (pf : platform) : size_t_wrap pf 1 = 1%Z.
Proof.
  apply size_t_wrap_small. pose proof (size_t_modulus_gt_1 pf). lia.
Qed.

(** ** The scanner: what one iteration can do *)

Section ScannerFacts.

Variable pf : platform.

Lemma skip_not_quote (chr : ascii) :
  isskpchr chr = true -> Ascii.eqb chr DQUOTE = false.
Proof.
  unfold isskpchr, skpchrs. cbn [existsb]. intros H.
  destruct (Ascii.eqb_spec chr DQUOTE) as [->|]; [discriminate H|reflexivity].
Qed.

Lemma skip_not_hash (chr : ascii) :
  isskpchr chr = true -> Ascii.eqb chr "#" = false.
Proof.
  unfold isskpchr, skpchrs. cbn [existsb]. intros H.
  destruct (Ascii.eqb_spec chr "#") as [->|]; [discriminate H|reflexivity].
Qed.

(** What an iteration that starts with both flags down does: it leaves
    them down, it moves the cut index by at most one, and it appends at
    most the current character, which is then a skip character or, with
    the cut index at 0, one of the brackets. *)
Lemma loop_body_flags_down (st : scan_state) (chr : ascii) :
  flags_down st ->
  forall b f st', loop_body pf st chr = (b, f, st') ->
  flags_down st'
  /\ flagged b = false
  /\ (nextidend st' = nextidend st
      \/ nextidend st' = size_t_wrap pf (nextidend st + 1))
  /\ (f = Next -> nextidend st' = size_t_wrap pf (nextidend st + 1))
  /\ (nextid st' = nextid st
      \/ (nextid st' = nextid st ++ [chr]
          /\ nextidend st' = size_t_wrap pf (nextidend st + 1)
          /\ (isskpchr chr = true
              \/ (isunchainablechr chr = true /\ nextidend st = 0%Z
                  /\ f = Break)))).
Proof.
  intros [Hstr Hcom] b f st'. unfold loop_body. rewrite Hcom.
  destruct (isunchainablechr chr) eqn:Hun.
  { destruct (nextidend st =? 0)%Z eqn:H0; intros [= <- <- <-]; cbn.
    - apply Z.eqb_eq in H0.
      repeat split; auto; try discriminate. right. auto 6.
    - repeat split; auto; discriminate. }
  rewrite Hstr, orb_false_r.
  destruct (isskpchr chr) eqn:Hskp.
  2:{ destruct (nonempty (nextid st)); intros [= <- <- <-]; cbn;
      repeat split; auto; discriminate. }
  unfold quote_comment_string. rewrite Hcom, Hstr. cbn [negb].
  rewrite (skip_not_quote _ Hskp), (skip_not_hash _ Hskp).
  unfold classify, accumulate.
  repeat match goal with
         | |- context [if ?c then _ else _] => destruct c
         end;
    intros [= <- <- <-]; cbn; repeat split; auto; try discriminate.
Qed.

Lemma scan_flags_down (line : std_string) :
  forall st, flags_down st -> flags_down (scan pf st line).
Proof.
  induction line as [|chr rest IH]; intros st Hst; cbn [scan]; [assumption|].
  destruct (loop_body pf st chr) as [[b f] st'] eqn:Hbody.
  destruct (loop_body_flags_down chr Hst Hbody) as (Hst' & _).
  destruct f; auto.
Qed.

(** No iteration starts with a flag up, and none takes an exit that needs
    one. *)
Lemma scan_trace_flags_down (line : std_string) :
  forall st, flags_down st ->
  Forall (fun e => flags_down (fst e) /\ flagged (snd e) = false)
         (scan_trace pf st line).
Proof.
  induction line as [|chr rest IH]; intros st Hst; cbn [scan_trace];
    [constructor|].
  destruct (loop_body pf st chr) as [[b f] st'] eqn:Hbody.
  destruct (loop_body_flags_down chr Hst Hbody) as (Hst' & Hb & _).
  destruct f; repeat constructor; cbn [fst snd]; auto; apply Hst.
Qed.

(** The cut index counts at most the characters that the loop has seen. *)
Lemma scan_nextidend_bound (line : std_string) :
  forall st k, flags_down st ->
  (0 <= nextidend st <= Z.of_nat k)%Z ->
  (0 <= nextidend (scan pf st line) <= Z.of_nat (k + length line))%Z.
Proof.
  induction line as [|chr rest IH]; intros st k Hst Hk; cbn [scan length].
  { rewrite Nat.add_0_r. assumption. }
  destruct (loop_body pf st chr) as [[b f] st'] eqn:Hbody.
  destruct (loop_body_flags_down chr Hst Hbody) as (Hst' & _ & Hend & _).
  assert (Hk' : (0 <= nextidend st' <= Z.of_nat (S k))%Z).
  { pose proof (size_t_wrap_range pf (nextidend st + 1)).
    pose proof (@size_t_wrap_le pf (nextidend st + 1)).
    destruct Hend as [-> | ->]; lia. }
  destruct f.
  - specialize (IH st' (S k) Hst' Hk'). lia.
  - lia.
Qed.

(** On a line whose length fits [size_t], the cut index is the number of
    characters seen, and the lexeme is a run of skip characters or one
    bracket. *)
Lemma scan_lexeme_shape (line : std_string) :
  forall st k, flags_down st ->
  nextidend st = Z.of_nat k ->
  length (nextid st) <= k ->
  all_skip (nextid st) ->
  (Z.of_nat (k + length line) < 2 ^ Z.pos (size_t_bits pf))%Z ->
  all_skip (nextid (scan pf st line))
  \/ exists c, isunchainablechr c = true /\ nextid (scan pf st line) = [c].
Proof.
  induction line as [|chr rest IH]; intros st k Hst Hk Hlen Hskip Hfit;
    cbn [scan length] in *; [left; assumption|].
  destruct (loop_body pf st chr) as [[b f] st'] eqn:Hbody.
  destruct (loop_body_flags_down chr Hst Hbody)
    as (Hst' & _ & _ & Hnext & Hid).
  destruct f.
  - apply (IH st' (S k)); auto.
    + rewrite (Hnext eq_refl), Hk, size_t_wrap_small; lia.
    + destruct Hid as [-> | (-> & _)]; [lia|].
      rewrite length_app; cbn [length]; lia.
    + destruct Hid as [-> | (-> & _ & [Hc | (_ & _ & [=])])]; [assumption|].
      apply Forall_app; split; [assumption|repeat constructor; assumption].
    + lia.
  - destruct Hid as [-> | (-> & _ & [Hc | (Hc & H0 & _)])].
    + left; assumption.
    + left. apply Forall_app; split; [assumption|repeat constructor; assumption].
    + right. exists chr. split; [assumption|].
      assert (k = 0) by lia. subst k.
      destruct (nextid st); [reflexivity|cbn [length] in Hlen; lia].
Qed.

(** The first iteration moves the cut index to 1, whatever the character. *)
Lemma loop_body_first (chr : ascii) :
  forall b f st', loop_body pf scan_init chr = (b, f, st') ->
  nextidend st' = 1%Z.
Proof.
  intros b f st'. unfold loop_body, scan_init. cbn [iscomment nextidend isstr].
  destruct (isunchainablechr chr).
  { intros [= <- <- <-]. cbn. apply size_t_wrap_1. }
  rewrite orb_false_r. destruct (isskpchr chr) eqn:Hskp.
  - unfold quote_comment_string. cbn [iscomment isstr negb].
    rewrite (skip_not_quote _ Hskp), (skip_not_hash _ Hskp).
    unfold classify. cbn [idtype IdentifierType_eqb].
    intros [= <- <- <-]. cbn. apply size_t_wrap_1.
  - cbn [nextid nonempty length Nat.ltb Nat.leb].
    intros [= <- <- <-]. cbn. apply size_t_wrap_1.
Qed.

(** On a line whose length fits [size_t], the cut index does not go back. *)
Lemma scan_nextidend_lower (line : std_string) :
  forall st k, flags_down st ->
  nextidend st = Z.of_nat k ->
  (Z.of_nat (k + length line) < 2 ^ Z.pos (size_t_bits pf))%Z ->
  (Z.of_nat k <= nextidend (scan pf st line))%Z.
Proof.
  induction line as [|chr rest IH]; intros st k Hst Hk Hfit;
    cbn [scan length] in *; [lia|].
  destruct (loop_body pf st chr) as [[b f] st'] eqn:Hbody.
  destruct (loop_body_flags_down chr Hst Hbody)
    as (Hst' & _ & Hend & Hnext & _).
  assert (Hwrap : size_t_wrap pf (nextidend st + 1) = Z.of_nat (S k)).
  { rewrite Hk, size_t_wrap_small; lia. }
  destruct f.
  - assert (Hle : (Z.of_nat (S k) <= nextidend (scan pf st' rest))%Z).
    { apply IH; [assumption| |lia]. rewrite (Hnext eq_refl). exact Hwrap. }
    lia.
  - destruct Hend as [-> | ->]; lia.
Qed.

End ScannerFacts.

(** ** extract_identifier *)

Lemma isskpchr_In (c : ascii) : isskpchr c = true <-> In c skpchrs.
Proof.
  unfold isskpchr. rewrite existsb_exists. split.
  - intros (x & Hx & Heq). apply Ascii.eqb_eq in Heq. subst. assumption.
  - intros Hc. exists c. split; [assumption|apply Ascii.eqb_refl].
Qed.

Lemma isunchainablechr_In (c : ascii) :
  isunchainablechr c = true <-> In c nonchainablechrs.
Proof.
  unfold isunchainablechr. rewrite existsb_exists. split.
  - intros (x & Hx & Heq). apply Ascii.eqb_eq in Heq. subst. assumption.
  - intros Hc. exists c. split; [assumption|apply Ascii.eqb_refl].
Qed.

(** A blank lexeme holds no letter, digit, quote or comment marker. *)
Lemma blank_lexeme_no_text (lexeme : std_string) :
  blank_lexeme lexeme ->
  forall c, In c lexeme ->
  is_letter c = false /\ is_digit c = false
  /\ c <> DQUOTE /\ c <> "'"%char /\ c <> "#"%char.
Proof.
  assert (Hchars : forall c, In c (nonchainablechrs ++ skpchrs) ->
    is_letter c = false /\ is_digit c = false
    /\ c <> DQUOTE /\ c <> "'"%char /\ c <> "#"%char).
  { intros c Hc. cbn in Hc.
    repeat (destruct Hc as [<- | Hc];
            [repeat split; try reflexivity; discriminate|]).
    contradiction. }
  intros [-> | c0 Hc0 -> | _ Hall] c Hc.
  - contradiction.
  - destruct Hc as [<- | []]. apply Hchars, in_or_app. left; assumption.
  - apply Hchars, in_or_app. right.
    rewrite Forall_forall in Hall. apply Hall; assumption.
Qed.

Lemma substr_in_range (s : std_string) (pos : Z) :
  (0 <= pos <= Z.of_nat (length s))%Z ->
  substr s pos = Returned (skipn (Z.to_nat pos) s)
  /\ s = firstn (Z.to_nat pos) s ++ skipn (Z.to_nat pos) s.
Proof.
  intros Hpos. unfold substr.
  destruct (Z.leb_spec pos (Z.of_nat (length s))); [|lia].
  split; [reflexivity|symmetry; apply firstn_skipn].
Qed.

Lemma scan_init_flags_down : flags_down scan_init.
Proof. split; reflexivity. Qed.

Lemma scan_init_cut (pf : platform) (line : std_string) :
  (0 <= nextidend (scan pf scan_init line) <= Z.of_nat (length line))%Z.
Proof.
  apply (@scan_nextidend_bound pf line scan_init 0 scan_init_flags_down).
  cbn. lia.
Qed.

(** [extract_identifier] returns: the lexeme is [nextid] and the line is
    cut at [nextidend], as the loop leaves them. *)
Lemma extract_identifier_returns
    (pf : platform) (line : std_string) (separator : ascii) :
  extract_identifier pf line separator
  = Returned (nextid (scan pf scan_init line),
              skipn (Z.to_nat (nextidend (scan pf scan_init line))) line).
Proof.
  unfold extract_identifier.
  destruct (substr_in_range line (scan_init_cut pf line)) as [-> _].
  reflexivity.
Qed.

(** C10: for every line, the cut index that [extract_identifier] ends with
    is at most the length of the line, so [substr] does not throw and the
    line is left as a suffix of what it was; and no iteration of the loop
    starts with the string flag up or takes the exit that advances the
    index by the value of a character. *)
Theorem extract_identifier_cut_in_range
    (pf : platform) (line : std_string) (separator : ascii) :
  (0 <= nextidend (scan pf scan_init line) <= Z.of_nat (length line))%Z
  /\ (exists lexeme consumed rest,
        extract_identifier pf line separator = Returned (lexeme, rest)
        /\ line = consumed ++ rest)
  /\ Forall (fun e => isstr (fst e) = false /\ snd e <> StringAdvance)
            (scan_trace pf scan_init line).
Proof.
  split; [apply scan_init_cut|split].
  - rewrite extract_identifier_returns.
    eexists _, _, _. split; [reflexivity|].
    symmetry. apply firstn_skipn.
  - eapply Forall_impl;
      [|apply (scan_trace_flags_down pf line scan_init_flags_down)].
    intros [st b] [[Hstr _] Hb]; cbn [fst snd] in *. split; [assumption|].
    intros ->. discriminate Hb.
Qed.

(** C2: for every line whose length [size_t] can hold and every separator,
    [extract_identifier] returns the empty string, one of the four brackets,
    or a run of space, tab and NUL; no letter, digit, quote or [#] is in it,
    and the string flag is down at every iteration. *)
Theorem extract_identifier_lexeme_blank
    (pf : platform) (line : std_string) (separator : ascii) :
  (Z.of_nat (length line) < 2 ^ Z.pos (size_t_bits pf))%Z ->
  exists lexeme rest,
    extract_identifier pf line separator = Returned (lexeme, rest)
    /\ blank_lexeme lexeme
    /\ (forall c, In c lexeme ->
        is_letter c = false /\ is_digit c = false
        /\ c <> DQUOTE /\ c <> "'"%char /\ c <> "#"%char)
    /\ Forall (fun e => isstr (fst e) = false) (scan_trace pf scan_init line).
Proof.
  intros Hfit.
  assert (Hblank : blank_lexeme (nextid (scan pf scan_init line))).
  { destruct (@scan_lexeme_shape pf line scan_init 0 scan_init_flags_down)
      as [Hall | (c & Hc & ->)];
      try solve [reflexivity | constructor | cbn; lia].
    - destruct (nextid (scan pf scan_init line)) as [|c0 l] eqn:Hid.
      + apply blank_empty; reflexivity.
      + apply blank_skips; [discriminate|].
        eapply Forall_impl; [|exact Hall]. intros x. apply isskpchr_In.
    - eapply blank_bracket; [apply isunchainablechr_In; exact Hc|reflexivity]. }
  eexists _, _. split; [apply extract_identifier_returns|].
  split; [exact Hblank|split].
  - apply blank_lexeme_no_text; assumption.
  - eapply Forall_impl;
      [|apply (scan_trace_flags_down pf line scan_init_flags_down)].
    intros e [[He _] _]; exact He.
Qed.

(** The line of the witness: a word, spaces, a bracket. *)
Lemma extract_identifier_lexeme_blank_witness :
  (Z.of_nat (length (lit "ab  (c")) < 2 ^ Z.pos (size_t_bits win64))%Z
  /\ exists lexeme rest,
       extract_identifier win64 (lit "ab  (c") " " = Returned (lexeme, rest)
       /\ blank_lexeme lexeme
       /\ (forall c, In c lexeme ->
           is_letter c = false /\ is_digit c = false
           /\ c <> DQUOTE /\ c <> "'"%char /\ c <> "#"%char)
       /\ Forall (fun e => isstr (fst e) = false)
                 (scan_trace win64 scan_init (lit "ab  (c")).
Proof.
  split; [vm_compute; reflexivity|].
  apply (extract_identifier_lexeme_blank win64 (lit "ab  (c") " ").
  vm_compute; reflexivity.
Defined.

(** A bracket alone on the line is returned, and the line is left empty. *)
Lemma extract_identifier_single_bracket
    (pf : platform) (separator c : ascii) :
  isunchainablechr c = true ->
  extract_identifier pf [c] separator = Returned ([c], []).
Proof.
  intros Hc. rewrite extract_identifier_returns.
  cbn [scan]. unfold loop_body, scan_init. cbn [iscomment]. rewrite Hc.
  unfold push_chr, incr_end. cbn [nextidend nextid Z.eqb Z.add app].
  rewrite size_t_wrap_1. reflexivity.
Qed.

(** C7: each of the four brackets, alone on the line, is returned as the
    lexeme and the line is left empty, whatever the separator. *)
Theorem extract_identifier_brackets (pf : platform) (separator : ascii) :
  extract_identifier pf (lit "(") separator = Returned (lit "(", [])
  /\ extract_identifier pf (lit ")") separator = Returned (lit ")", [])
  /\ extract_identifier pf (lit "[") separator = Returned (lit "[", [])
  /\ extract_identifier pf (lit "]") separator = Returned (lit "]", []).
Proof.
  repeat split; apply extract_identifier_single_bracket; reflexivity.
Qed.

(** C1, the code at a quoted string: the quote does not raise the string
    flag and the text between the quotes is not returned. On the line
    ["a b"] the lexeme is the space alone, and [b"] is left on the line; on
    the unterminated ["a b] the same lexeme is returned and [b] is left,
    so the input is not consumed to its end. *)
Theorem extract_identifier_quoted_text_not_captured :
  extract_identifier win64 (DQUOTE :: lit "a b" ++ [DQUOTE]) " "
    = Returned (lit " ", lit "b" ++ [DQUOTE])
  /\ extract_identifier win64 (DQUOTE :: lit "a b") " "
    = Returned (lit " ", lit "b")
  /\ map snd (scan_trace win64 scan_init (DQUOTE :: lit "a b" ++ [DQUOTE]))
    = [Skip; Skip; Accumulate; SeparatorStop].
Proof. vm_compute. repeat split. Qed.

(** ** The token model *)

Lemma TokenType_members_ordinal :
  map TokenType.ordinal TokenType.members = seq 0 22.
Proof. reflexivity. Qed.

Lemma TokenType_members_NoDup : NoDup TokenType.members.
Proof.
  apply (NoDup_map_inv TokenType.ordinal).
  rewrite TokenType_members_ordinal. apply seq_NoDup.
Qed.

Lemma TokenType_members_complete (x : TokenType.t) : In x TokenType.members.
Proof. destruct x; cbn; tauto. Qed.

(** C5, as stated, fails: the enumeration does not have 21 members. The
    declared list has another length, and no list of 21 enumerators holds
    them all. *)
Lemma TokenType_not_21_members :
  length TokenType.members <> 21
  /\ ~ (exists l : list TokenType.t, length l = 21 /\ forall x, In x l).
Proof.
  split; [discriminate|].
  intros (l & Hlen & Hall).
  assert (Hle : length TokenType.members <= length l).
  { apply NoDup_incl_length; [apply TokenType_members_NoDup|].
    intros x _. apply Hall. }
  rewrite Hlen in Hle. cbn in Hle. lia.
Qed.

(** C5, amended: the enumeration is closed with exactly 22 members, the 21
    token types and then [Invalid], in the order of the declaration; the
    ordinal of each is its position, and that of [Invalid] is 21. *)
Theorem TokenType_22_members :
  TokenType.members
  = [TokenType.Number; TokenType.Bool; TokenType.String; TokenType.Const;
     TokenType.Var; TokenType.Func; TokenType.EndStatement; TokenType.If;
     TokenType.Else; TokenType.While; TokenType.Equals;
     TokenType.UnaryOperator; TokenType.BinaryOperator; TokenType.OpenParen;
     TokenType.CloseParen; TokenType.OpenBracket; TokenType.CloseBracket;
     TokenType.Identifier; TokenType.Comment; TokenType.EndOfLine;
     TokenType.EndOfFile; TokenType.Invalid]
  /\ length TokenType.members = 22
  /\ NoDup TokenType.members
  /\ (forall x, In x TokenType.members)
  /\ (forall x, nth_error TokenType.members (TokenType.ordinal x) = Some x)
  /\ TokenType.ordinal TokenType.Invalid = 21.
Proof.
  split; [reflexivity|]. split; [reflexivity|].
  split; [apply TokenType_members_NoDup|].
  split; [apply TokenType_members_complete|].
  split; [|reflexivity].
  intros x; destruct x; reflexivity.
Qed.

(** C4: the table has 21 slots, one per token type before [Invalid] and in
    the order of the ordinals; slot by slot it holds the spellings of the
    specification's table; the slot of [Var] holds ["zylo"] alone; the slot
    of [EndOfFile] has no initialiser among the 20 given and is empty. *)
Theorem tk_identifiers_table :
  length tk_identifiers = 21
  /\ length tk_identifiers = TokenType.ordinal TokenType.Invalid
  /\ map indentifiers tk_identifiers
     = map spec_spelling_table (firstn 21 TokenType.members)
  /\ tk_spellings TokenType.Var = [lit "zylo"]
  /\ length tk_identifiers_initializers = 20
  /\ tk_spellings TokenType.EndOfFile = []
  /\ tk_spellings TokenType.EndOfLine = [[NEWLINE]; [CR]; lit ";"].
Proof. repeat split. Qed.

(** ** tokenize *)

(** C3: on the empty source, [tokenize] returns one token, of type
    [EndOfFile] and with the empty value. *)
Theorem tokenize_empty
    (pf : platform) (determine_token_type : std_string -> Token) :
  tokenize pf determine_token_type []
  = Some (Returned [MkToken TokenType.EndOfFile []]).
Proof. reflexivity. Qed.

(** A call of [extract_identifier] on a line that is not empty, and whose
    length fits [size_t], leaves a shorter line. *)
Lemma extract_identifier_progress
    (pf : platform) (line : std_string) (separator : ascii) :
  line <> [] ->
  (Z.of_nat (length line) < 2 ^ Z.pos (size_t_bits pf))%Z ->
  exists lexeme rest,
    extract_identifier pf line separator = Returned (lexeme, rest)
    /\ length rest < length line.
Proof.
  intros Hne Hfit. rewrite extract_identifier_returns.
  eexists _, _. split; [reflexivity|].
  pose proof (scan_init_cut pf line) as Hcut.
  assert (Hpos : (1 <= nextidend (scan pf scan_init line))%Z).
  { destruct line as [|chr rest]; [contradiction|]. cbn [scan length] in *.
    destruct (loop_body pf scan_init chr) as [[b f] st'] eqn:Hbody.
    pose proof (loop_body_first pf chr Hbody) as Hone.
    destruct (loop_body_flags_down pf chr scan_init_flags_down Hbody)
      as (Hst' & _).
    destruct f; [|lia].
    apply (@scan_nextidend_lower pf rest st' 1 Hst' Hone). lia. }
  rewrite length_skipn. lia.
Qed.

(** The fuel of [tokenize] is enough: on a source whose length fits
    [size_t] the loop ends, no exception is thrown, and the tokens end with
    [EndOfFile]. *)
Lemma tokenize_loop_returns
    (pf : platform) (determine_token_type : std_string -> Token) (fuel : nat) :
  forall line tokens,
  length line <= fuel ->
  (Z.of_nat (length line) < 2 ^ Z.pos (size_t_bits pf))%Z ->
  exists tokens',
    tokenize_loop pf determine_token_type fuel line tokens
    = Some (Returned (tokens' ++ [MkToken TokenType.EndOfFile []])).
Proof.
  induction fuel as [|fuel IH]; intros line tokens Hfuel Hfit.
  - destruct line; [|cbn [length] in Hfuel; lia]. cbn. eauto.
  - destruct line as [|chr rest]; [cbn; eauto|].
    cbn [tokenize_loop].
    destruct (@extract_identifier_progress pf (chr :: rest) " ")
      as (lexeme & rest' & -> & Hshort); [discriminate|assumption|].
    apply IH; cbn [length] in *; lia.
Qed.

Lemma tokenize_returns
    (pf : platform) (determine_token_type : std_string -> Token)
    (src : std_string) :
  (Z.of_nat (length src) < 2 ^ Z.pos (size_t_bits pf))%Z ->
  exists tokens,
    tokenize pf determine_token_type src
    = Some (Returned (tokens ++ [MkToken TokenType.EndOfFile []])).
Proof. intros Hfit. apply tokenize_loop_returns; [lia|assumption]. Qed.

(** ** The memory tracker *)

Lemma Memory_create_all_count (cxx_type : Type) (Ts : list cxx_type) :
  forall (m : Memory.t) (fs : Memory.free_store cxx_type),
  Memory.pointers_count (fst (Memory.create_all Ts m fs))
  = (Memory.pointers_count m + Z.of_nat (length Ts))%Z.
Proof.
  induction Ts as [|T Ts IH]; intros m fs; cbn [Memory.create_all length].
  - cbn [fst]. lia.
  - unfold Memory.create, Memory.new. rewrite IH.
    unfold Memory.pointers_count. cbn [Memory.pointers].
    rewrite length_app. cbn [length]. lia.
Qed.

Lemma fresh_address_not_live (cxx_type : Type)
    (fs : Memory.free_store cxx_type) :
  ~ In (Memory.fresh_address fs) (map fst fs).
Proof.
  assert (Hmax : forall p, In p (map fst fs) ->
                 (p <= fold_right N.max 0 (map fst fs))%N).
  { induction fs as [|a fs IH]; intros p; cbn [map fold_right In];
      [contradiction|].
    intros [<- | Hin]; [lia|]. specialize (IH p Hin). lia. }
  intros Hin. apply Hmax in Hin. unfold Memory.fresh_address in Hin. lia.
Qed.

(** [create] hands out an address that was not live, makes it live, and
    tracks it after the addresses tracked before. *)
Lemma Memory_create_tracks (cxx_type : Type) (T : cxx_type)
    (m : Memory.t) (fs : Memory.free_store cxx_type) :
  let '(p, (m', fs')) := Memory.create T m fs in
  ~ In p (map fst fs)
  /\ In (p, T) fs'
  /\ Memory.pointers m' = Memory.pointers m ++ [p].
Proof.
  unfold Memory.create, Memory.new.
  split; [apply fresh_address_not_live|]. split; [left|]; reflexivity.
Qed.

Lemma delete_not_live (cxx_type : Type) (p q : Memory.pointer)
    (fs : Memory.free_store cxx_type) :
  p = q \/ ~ In q (map fst fs) -> ~ In q (map fst (Memory.delete p fs)).
Proof.
  intros Hq Hin. apply in_map_iff in Hin as ([q' T] & <- & Hin').
  apply filter_In in Hin' as [Hin' Hneq]. cbn [fst] in *.
  destruct Hq as [-> | Hq].
  - rewrite N.eqb_refl in Hneq. discriminate.
  - apply Hq. apply in_map_iff. exists (q', T). split; [reflexivity|assumption].
Qed.

(** [clear] releases every tracked address. *)
Lemma Memory_clear_releases (cxx_type : Type) (m : Memory.t)
    (fs : Memory.free_store cxx_type) (q : Memory.pointer) :
  In q (Memory.pointers m) ->
  ~ In q (map fst (snd (Memory.clear m fs))).
Proof.
  unfold Memory.clear. cbn [snd].
  assert (Hgen : forall ps (fs0 : Memory.free_store cxx_type),
    In q ps \/ ~ In q (map fst fs0) ->
    ~ In q (map fst (fold_left
                       (fun fs' p => Memory.delete p fs') ps fs0))).
  { induction ps as [|p ps IH]; intros fs0 Hq; cbn [fold_left].
    - destruct Hq as [[] | Hq]; exact Hq.
    - apply IH. destruct Hq as [[-> | Hin] | Hq].
      + right. apply delete_not_live. left; reflexivity.
      + left; assumption.
      + right. apply delete_not_live. right; assumption. }
  intros Hin. apply Hgen. left; assumption.
Qed.

(** C9: from a newly constructed tracker, after the [create] calls of a
    list of N types and no [clear], [pointers_count] is N; and after a
    [clear], of this tracker or of any other, it is 0. *)
Theorem Memory_count_after_create_and_clear
    (cxx_type : Type) (Ts : list cxx_type) (fs : Memory.free_store cxx_type) :
  Memory.pointers_count (fst (Memory.create_all Ts Memory.Memory fs))
  = Z.of_nat (length Ts)
  /\ Memory.pointers_count
       (fst (Memory.clear
               (fst (Memory.create_all Ts Memory.Memory fs))
               (snd (Memory.create_all Ts Memory.Memory fs)))) = 0%Z
  /\ forall (m : Memory.t) (fs' : Memory.free_store cxx_type),
       Memory.pointers_count (fst (Memory.clear m fs')) = 0%Z.
Proof.
  split; [|split]; [|reflexivity|reflexivity].
  rewrite Memory_create_all_count. reflexivity.
Qed.

(** ** The console and the entry point *)

Lemma split_line_app (s rest : std_string) :
  ~ In NEWLINE s -> split_line (s ++ NEWLINE :: rest) = (s, rest).
Proof.
  induction s as [|c s IH]; intros Hs; cbn [split_line app].
  - reflexivity.
  - destruct (Ascii.eqb_spec c NEWLINE) as [->|_].
    + exfalso. apply Hs. left; reflexivity.
    + rewrite IH; [reflexivity|]. intros Hin. apply Hs. right; assumption.
Qed.

(** [init] returns 0 and writes the banner, in every world. *)
Lemma init_returns_0 (GREEN WHITE : Z) (w : world) :
  fst (zylo_terminal.init GREEN WHITE w) = 0%Z
  /\ stdin (snd (zylo_terminal.init GREEN WHITE w)) = stdin w
  /\ stdout (snd (zylo_terminal.init GREEN WHITE w)) = stdout w ++ banner
  /\ stderr (snd (zylo_terminal.init GREEN WHITE w)) = stderr w.
Proof.
  unfold zylo_terminal.init, zylo_terminal.info, bind, ret.
  cbn [emit fst snd stdin]. unfold stdout, stderr, banner. cbn [events].
  repeat split; repeat rewrite flat_map_app; cbn [flat_map];
    repeat rewrite app_nil_r; repeat rewrite <- app_assoc; reflexivity.
Qed.

(** The run of [main] in any world: the line is what [split_line] cuts
    from standard input. *)
Lemma main_runs (GREEN WHITE : Z) (w : world) :
  fst (main GREEN WHITE w) = 0%Z
  /\ stdin (snd (main GREEN WHITE w)) = snd (split_line (stdin w))
  /\ stdout (snd (main GREEN WHITE w))
     = stdout w ++ banner ++ lit ">>> " ++ lit "You entered: "
       ++ fst (split_line (stdin w)) ++ endl
  /\ stderr (snd (main GREEN WHITE w)) = stderr w.
Proof.
  unfold main, bind.
  pose proof (init_returns_0 GREEN WHITE w) as (Hret & Hin & Hout & Herr).
  destruct (zylo_terminal.init GREEN WHITE w) as [status w1].
  cbn [fst snd] in *. subst status. cbn [Z.eqb negb].
  unfold zylo_terminal.input, bind, ret, getline. cbn [emit fst snd stdin events].
  rewrite Hin. destruct (split_line (stdin w)) as [l rest].
  cbn [fst snd stdin]. unfold stdout, stderr in *. cbn [events].
  repeat split; repeat rewrite flat_map_app; cbn [flat_map];
    rewrite ?Hout, ?Herr; repeat rewrite app_nil_r;
    repeat rewrite <- app_assoc; reflexivity.
Qed.

(** C8: [init] returns 0 in every world, so [main] never takes the branch
    that writes to the error stream and returns 1: it exits with status 0
    and leaves the error stream as it was; and for every line [s] on
    standard input, it writes to standard output the banner, the prompt and
    then [You entered: ] followed by [s] and a newline. *)
Theorem main_echoes_line (GREEN WHITE : Z) (w : world) :
  fst (zylo_terminal.init GREEN WHITE w) = 0%Z
  /\ fst (main GREEN WHITE w) = 0%Z
  /\ stderr (snd (main GREEN WHITE w)) = stderr w
  /\ forall s rest : std_string,
       ~ In NEWLINE s ->
       stdin w = s ++ NEWLINE :: rest ->
       stdout (snd (main GREEN WHITE w))
       = stdout w ++ banner ++ lit ">>> " ++ lit "You entered: " ++ s ++ endl
       /\ stdin (snd (main GREEN WHITE w)) = rest.
Proof.
  pose proof (main_runs GREEN WHITE w) as (Hret & Hrest & Hout & Herr).
  split; [apply init_returns_0|]. split; [exact Hret|]. split; [exact Herr|].
  intros s rest Hs Hin.
  rewrite Hout, Hrest, Hin, (@split_line_app s rest Hs). split; reflexivity.
Qed.

(** The run of the specification's example: the line [hello]. *)
Lemma main_echoes_line_witness :
  ~ In NEWLINE (lit "hello")
  /\ fst (main 2 7 {| stdin := lit "hello" ++ [NEWLINE]; events := [] |}) = 0%Z
  /\ stdout (snd (main 2 7 {| stdin := lit "hello" ++ [NEWLINE]; events := [] |}))
     = banner ++ lit ">>> You entered: hello" ++ endl.
Proof.
  assert (Hs : ~ In NEWLINE (lit "hello")) by not_in_literal.
  split; [exact Hs|].
  destruct (main_echoes_line 2 7
              {| stdin := lit "hello" ++ [NEWLINE]; events := [] |})
    as (_ & Hret & _ & Hline).
  split; [exact Hret|].
  destruct (Hline (lit "hello") [] Hs eq_refl) as [-> _]. reflexivity.
Defined.

(** ** The escape transforms *)

Lemma firstn_length_app (A : Type) (l l' : list A) :
  firstn (length l) (l ++ l') = l.
Proof.
  induction l as [|a l IH]; cbn; [destruct l'; reflexivity|].
  rewrite IH. reflexivity.
Qed.

Lemma skipn_length_app (A : Type) (l l' : list A) (n : nat) :
  skipn (length l + n) (l ++ l') = skipn n l'.
Proof. induction l as [|a l IH]; cbn; [reflexivity|exact IH]. Qed.

Lemma nth_length_app (A : Type) (l l' : list A) (n : nat) (d : A) :
  nth (length l + n) (l ++ l') d = nth n l' d.
Proof. induction l as [|a l IH]; cbn; [reflexivity|exact IH]. Qed.

Lemma string_at_cut (done rest : std_string) (chr : ascii) :
  string_at (done ++ chr :: rest) (length done) = chr.
Proof.
  unfold string_at. rewrite <- (Nat.add_0_r (length done)).
  apply nth_length_app.
Qed.

Lemma string_at_cut_next (done rest : std_string) (chr : ascii) :
  string_at (done ++ chr :: rest) (length done + 1) = nth 0 rest NUL.
Proof. unfold string_at. rewrite nth_length_app. reflexivity. Qed.

Lemma string_set_at (done rest : std_string) (chr repl : ascii) :
  string_set (done ++ chr :: rest) (length done) repl = done ++ repl :: rest.
Proof.
  unfold string_set. rewrite firstn_length_app.
  replace (S (length done)) with (length done + 1) by lia.
  rewrite skipn_length_app. reflexivity.
Qed.

Lemma string_erase_at (done rest : std_string) (chr : ascii) :
  string_erase (done ++ chr :: rest) (length done) = done ++ rest.
Proof.
  unfold string_erase. rewrite firstn_length_app.
  replace (S (length done)) with (length done + 1) by lia.
  rewrite skipn_length_app. reflexivity.
Qed.

Lemma string_insert_at (done rest t : std_string) :
  string_insert (done ++ rest) (length done) t = done ++ t ++ rest.
Proof.
  unfold string_insert. rewrite firstn_length_app.
  rewrite <- (Nat.add_0_r (length done)) at 1.
  rewrite skipn_length_app. reflexivity.
Qed.

Lemma int_succ_fits_true (pf : platform) (i : nat) :
  (Z.of_nat i + 1 <= INT_MAX pf)%Z -> int_succ_fits pf i = true.
Proof. intros H. unfold int_succ_fits. apply Z.leb_le. exact H. Qed.

Lemma int_succ_fits_false (pf : platform) (i : nat) :
  (INT_MAX pf < Z.of_nat i + 1)%Z -> int_succ_fits pf i = false.
Proof. intros H. unfold int_succ_fits. apply Z.leb_gt. exact H. Qed.

Lemma process_loop_step (pf : platform) (s : std_string) (chridx : nat) :
  process_loop pf s chridx
  = if chridx <? length s
    then if int_succ_fits pf chridx
         then process_loop pf (process_body s chridx) (chridx + 1)
         else Undefined
    else Defined s.
Proof.
  rewrite process_loop_equation_1. unfold process_loop_unfold_clause_1, inspect.
  destruct (chridx <? length s); reflexivity.
Qed.

Lemma unprocess_loop_step (pf : platform) (s : std_string) (chridx : nat) :
  unprocess_loop pf s chridx
  = if chridx <? length s
    then if int_succ_fits pf (snd (unprocess_body s chridx))
         then unprocess_loop pf (fst (unprocess_body s chridx))
                             (snd (unprocess_body s chridx) + 1)
         else Undefined
    else Defined s.
Proof.
  rewrite unprocess_loop_equation_1.
  unfold unprocess_loop_unfold_clause_1, inspect.
  destruct (chridx <? length s); reflexivity.
Qed.

(** The body of the first loop, with the string cut at the index. *)
Lemma process_body_at (done rest : std_string) (chr : ascii) :
  process_body (done ++ chr :: rest) (length done)
  = done ++ collapse_head chr rest.
Proof.
  unfold process_body, collapse_head.
  rewrite string_at_cut, string_at_cut_next.
  destruct (Ascii.eqb chr BACKSLASH); [|reflexivity].
  rewrite length_app. cbn [length andb].
  destruct rest as [|nextchr rest'].
  { cbn [length].
    replace (length done + 1 - 1) with (length done) by lia.
    rewrite Nat.ltb_irrefl. reflexivity. }
  cbn [length].
  destruct (Nat.ltb_spec (length done) (length done + S (S (length rest')) - 1));
    [|lia].
  cbn [nth].
  assert (Hrepl : forall repl,
    string_erase (string_set (done ++ chr :: nextchr :: rest') (length done) repl)
                 (length done + 1)
    = done ++ repl :: rest').
  { intros repl. rewrite string_set_at.
    change (done ++ repl :: nextchr :: rest')
      with (done ++ [repl] ++ nextchr :: rest').
    rewrite app_assoc.
    replace (length done + 1) with (length (done ++ [repl]))
      by (rewrite length_app; reflexivity).
    rewrite string_erase_at, <- app_assoc. reflexivity. }
  destruct (Ascii.eqb nextchr "n"); [apply Hrepl|].
  destruct (Ascii.eqb nextchr "t"); [apply Hrepl|].
  reflexivity.
Qed.

Lemma collapse_head_cons (chr : ascii) (rest : std_string) :
  exists h t,
    collapse_head chr rest = h :: t
    /\ length t <= length rest
    /\ collapse_escapes (chr :: rest) = h :: collapse_escapes t.
Proof.
  unfold collapse_head. cbn [collapse_escapes].
  destruct (Ascii.eqb chr BACKSLASH).
  - destruct rest as [|nextchr rest'].
    + exists chr, []. repeat split; auto.
    + destruct (Ascii.eqb nextchr "n").
      { exists NEWLINE, rest'. repeat split; cbn [length]; auto. }
      destruct (Ascii.eqb nextchr "t").
      { exists TAB, rest'. repeat split; cbn [length]; auto. }
      exists chr, (nextchr :: rest'). repeat split; auto.
  - exists chr, rest. repeat split; auto.
Qed.

Lemma collapse_escapes_length (n : nat) :
  forall s, length s <= n -> length (collapse_escapes s) <= length s.
Proof.
  induction n as [|n IH]; intros s Hn.
  { destruct s; [reflexivity|cbn [length] in Hn; lia]. }
  destruct s as [|chr rest]; [reflexivity|]. cbn [length] in Hn.
  destruct (collapse_head_cons chr rest) as (h & t & _ & Hlen & ->).
  cbn [length]. specialize (IH t). lia.
Qed.

(** The first loop from an index on, when the string that it ends with has
    at most [INT_MAX] characters: the text before the index stays, the
    text from the index on is collapsed. *)
Lemma process_loop_collapse (pf : platform) (n : nat) :
  forall rest done, length rest <= n ->
  (Z.of_nat (length (done ++ collapse_escapes rest)) <= INT_MAX pf)%Z ->
  process_loop pf (done ++ rest) (length done)
  = Defined (done ++ collapse_escapes rest).
Proof.
  induction n as [|n IH]; intros rest done Hn Hfit; rewrite process_loop_step.
  - destruct rest; [|cbn [length] in Hn; lia].
    cbn [collapse_escapes]. rewrite app_nil_r, Nat.ltb_irrefl. reflexivity.
  - destruct rest as [|chr rest].
    { cbn [collapse_escapes]. rewrite app_nil_r, Nat.ltb_irrefl. reflexivity. }
    rewrite length_app. cbn [length] in Hn |- *.
    destruct (Nat.ltb_spec (length done) (length done + S (length rest)));
      [|lia].
    rewrite process_body_at.
    destruct (collapse_head_cons chr rest) as (h & t & -> & Hlen & Hcol).
    rewrite Hcol in Hfit |- *.
    rewrite int_succ_fits_true
      by (rewrite length_app in Hfit; cbn [length] in Hfit; lia).
    change (done ++ h :: t) with (done ++ [h] ++ t). rewrite app_assoc.
    replace (length done + 1) with (length (done ++ [h]))
      by (rewrite length_app; reflexivity).
    change (done ++ h :: collapse_escapes t)
      with (done ++ [h] ++ collapse_escapes t) in Hfit |- *.
    rewrite app_assoc in Hfit |- *.
    apply IH; [lia|exact Hfit].
Qed.

(** The first loop overflows when the string that it would end with has
    more than [INT_MAX] characters. *)
Lemma process_loop_overflow (pf : platform) (n : nat) :
  forall rest done, length rest <= n ->
  (Z.of_nat (length done) <= INT_MAX pf)%Z ->
  (INT_MAX pf < Z.of_nat (length (done ++ collapse_escapes rest)))%Z ->
  process_loop pf (done ++ rest) (length done) = Undefined.
Proof.
  induction n as [|n IH]; intros rest done Hn Hdone Hbig;
    rewrite process_loop_step.
  - destruct rest; [|cbn [length] in Hn; lia].
    cbn [collapse_escapes] in Hbig. rewrite app_nil_r in Hbig. lia.
  - destruct rest as [|chr rest].
    { cbn [collapse_escapes] in Hbig. rewrite app_nil_r in Hbig. lia. }
    rewrite length_app. cbn [length] in Hn |- *.
    destruct (Nat.ltb_spec (length done) (length done + S (length rest)));
      [|lia].
    unfold int_succ_fits.
    destruct (Z.leb_spec (Z.of_nat (length done) + 1) (INT_MAX pf));
      [|reflexivity].
    rewrite process_body_at.
    destruct (collapse_head_cons chr rest) as (h & t & -> & Hlen & Hcol).
    rewrite Hcol in Hbig.
    change (done ++ h :: t) with (done ++ [h] ++ t). rewrite app_assoc.
    replace (length done + 1) with (length (done ++ [h]))
      by (rewrite length_app; reflexivity).
    change (done ++ h :: collapse_escapes t)
      with (done ++ [h] ++ collapse_escapes t) in Hbig.
    rewrite app_assoc in Hbig.
    apply IH; [lia| |exact Hbig].
    rewrite length_app. cbn [length]. lia.
Qed.

(** [process_escape_characters] overflows on a string that it would leave
    with more than [INT_MAX] characters. *)
Lemma process_escape_characters_overflow (pf : platform) (s : std_string) :
  (0 <= INT_MAX pf)%Z ->
  (INT_MAX pf < Z.of_nat (length (collapse_escapes s)))%Z ->
  process_escape_characters pf s = Undefined.
Proof.
  intros Hpos Hbig. unfold process_escape_characters.
  apply (@process_loop_overflow pf (length s) s []); [lia|exact Hpos|].
  exact Hbig.
Qed.

(** [process_escape_characters], on a string of at most [INT_MAX]
    characters, is the collapse of the escapes. *)
Lemma process_escape_characters_collapse (pf : platform) (s : std_string) :
  (Z.of_nat (length s) <= INT_MAX pf)%Z ->
  process_escape_characters pf s = Defined (collapse_escapes s).
Proof.
  intros Hfit. unfold process_escape_characters.
  apply (@process_loop_collapse pf (length s) s []); [lia|].
  cbn [app]. pose proof (@collapse_escapes_length (length s) s (le_n _)). lia.
Qed.

(** The body of the second loop, with the string cut at the index. *)
Lemma unprocess_body_at (done rest : std_string) (chr : ascii) :
  fst (unprocess_body (done ++ chr :: rest) (length done))
  = (done ++ expand_chr chr) ++ rest
  /\ snd (unprocess_body (done ++ chr :: rest) (length done)) + 1
     = length (done ++ expand_chr chr).
Proof.
  unfold unprocess_body, expand_chr. rewrite string_at_cut.
  assert (Hins : forall inststr,
    string_insert (string_erase (done ++ chr :: rest) (length done))
                  (length done) inststr
    = (done ++ inststr) ++ rest).
  { intros inststr.
    rewrite string_erase_at, string_insert_at, app_assoc. reflexivity. }
  destruct (Ascii.eqb chr NEWLINE); [|destruct (Ascii.eqb chr TAB)];
    cbn [nonempty length Nat.ltb Nat.leb fst snd];
    rewrite ?Hins, ?length_app; cbn [length]; split;
    rewrite <- ?app_assoc; cbn [app]; try reflexivity; lia.
Qed.

(** The second loop from an index on, when the string that it ends with
    has at most [INT_MAX] characters: the text before the index stays, the
    text from the index on is expanded. *)
Lemma unprocess_loop_expand (pf : platform) (rest : std_string) :
  forall done,
  (Z.of_nat (length (done ++ expand_escapes rest)) <= INT_MAX pf)%Z ->
  unprocess_loop pf (done ++ rest) (length done)
  = Defined (done ++ expand_escapes rest).
Proof.
  induction rest as [|chr rest IH]; intros done Hfit;
    rewrite unprocess_loop_step.
  - cbn [expand_escapes flat_map]. rewrite app_nil_r, Nat.ltb_irrefl.
    reflexivity.
  - rewrite length_app. cbn [length].
    destruct (Nat.ltb_spec (length done) (length done + S (length rest)));
      [|lia].
    destruct (unprocess_body_at done rest chr) as [Hfst Hsnd].
    unfold expand_escapes in Hfit |- *. cbn [flat_map] in Hfit |- *.
    rewrite app_assoc in Hfit |- *.
    rewrite int_succ_fits_true by (rewrite length_app in Hfit; lia).
    rewrite Hfst, Hsnd. apply IH. exact Hfit.
Qed.

(** The second loop overflows when the string that it would end with has
    more than [INT_MAX] characters. *)
Lemma unprocess_loop_overflow (pf : platform) (rest : std_string) :
  forall done,
  (Z.of_nat (length done) <= INT_MAX pf)%Z ->
  (INT_MAX pf < Z.of_nat (length (done ++ expand_escapes rest)))%Z ->
  unprocess_loop pf (done ++ rest) (length done) = Undefined.
Proof.
  induction rest as [|chr rest IH]; intros done Hdone Hbig;
    rewrite unprocess_loop_step.
  - cbn [expand_escapes flat_map] in Hbig. rewrite app_nil_r in Hbig. lia.
  - rewrite length_app. cbn [length].
    destruct (Nat.ltb_spec (length done) (length done + S (length rest)));
      [|lia].
    destruct (unprocess_body_at done rest chr) as [Hfst Hsnd].
    unfold int_succ_fits.
    destruct (Z.leb_spec
                (Z.of_nat (snd (unprocess_body (done ++ chr :: rest)
                                               (length done))) + 1)
                (INT_MAX pf)) as [Hle|]; [|reflexivity].
    unfold expand_escapes in Hbig |- *. cbn [flat_map] in Hbig.
    rewrite app_assoc in Hbig.
    rewrite Hfst, Hsnd. apply IH; [|exact Hbig].
    rewrite <- Hsnd. lia.
Qed.

(** [unprocess_escape_characters] overflows when the expanded string has
    more than [INT_MAX] characters. *)
Lemma unprocess_escape_characters_overflow (pf : platform) (s : std_string) :
  (0 <= INT_MAX pf)%Z ->
  (INT_MAX pf < Z.of_nat (length (expand_escapes s)))%Z ->
  unprocess_escape_characters pf s = Undefined.
Proof.
  intros Hpos Hbig. apply (@unprocess_loop_overflow pf s [] Hpos Hbig).
Qed.

(** [unprocess_escape_characters], when the expanded string has at most
    [INT_MAX] characters, is the expansion of newlines and tabs. *)
Lemma unprocess_escape_characters_expand (pf : platform) (s : std_string) :
  (Z.of_nat (length (expand_escapes s)) <= INT_MAX pf)%Z ->
  unprocess_escape_characters pf s = Defined (expand_escapes s).
Proof. intros Hfit. apply (@unprocess_loop_expand pf s [] Hfit). Qed.

Lemma expand_chr_other (chr : ascii) :
  chr <> NEWLINE -> chr <> TAB -> expand_chr chr = [chr].
Proof.
  intros Hn Ht. unfold expand_chr.
  destruct (Ascii.eqb_spec chr NEWLINE); [contradiction|].
  destruct (Ascii.eqb_spec chr TAB); [contradiction|]. reflexivity.
Qed.

(** Expanding what was collapsed gives the text back, when the text has no
    newline and no tab of its own. *)
Lemma expand_collapse (n : nat) :
  forall s, length s <= n ->
  ~ In NEWLINE s -> ~ In TAB s ->
  expand_escapes (collapse_escapes s) = s.
Proof.
  induction n as [|n IH]; intros s Hlen Hnl Htab.
  { destruct s; [reflexivity|cbn [length] in Hlen; lia]. }
  destruct s as [|chr rest]; [reflexivity|].
  cbn [length] in Hlen.
  assert (Hchr : expand_chr chr = [chr]).
  { apply expand_chr_other; intros ->; [apply Hnl|apply Htab]; left; reflexivity. }
  assert (Hrest : expand_escapes (collapse_escapes rest) = rest).
  { apply IH; [lia| |]; intros Hin; [apply Hnl|apply Htab]; right; assumption. }
  assert (Hplain : expand_escapes (chr :: collapse_escapes rest) = chr :: rest).
  { unfold expand_escapes in *. cbn [flat_map]. rewrite Hchr, Hrest. reflexivity. }
  cbn [collapse_escapes].
  destruct (Ascii.eqb_spec chr BACKSLASH) as [-> | _]; [|exact Hplain].
  destruct rest as [|nextchr rest']; [reflexivity|].
  assert (Hrest' : expand_escapes (collapse_escapes rest') = rest').
  { apply IH; [cbn [length] in Hlen; lia| |]; intros Hin;
      [apply Hnl|apply Htab]; right; right; assumption. }
  destruct (Ascii.eqb_spec nextchr "n") as [-> | _].
  { unfold expand_escapes in *. cbn [flat_map]. rewrite Hrest'. reflexivity. }
  destruct (Ascii.eqb_spec nextchr "t") as [-> | _].
  { unfold expand_escapes in *. cbn [flat_map]. rewrite Hrest'. reflexivity. }
  exact Hplain.
Qed.

(** C6: on a string of at most [INT_MAX] characters with no newline and
    no tab character of its own (its newlines and tabs are written as the
    escapes [\n] and [\t]), [process_escape_characters] and then
    [unprocess_escape_characters] run without overflow and give the string
    back. *)
Theorem escape_round_trip (pf : platform) (s : std_string) :
  ~ In NEWLINE s -> ~ In TAB s ->
  (Z.of_nat (length s) <= INT_MAX pf)%Z ->
  and_then (process_escape_characters pf s) (unprocess_escape_characters pf)
  = Defined s.
Proof.
  intros Hnl Htab Hfit.
  pose proof (@expand_collapse (length s) s (le_n _) Hnl Htab) as Hback.
  rewrite (process_escape_characters_collapse pf s Hfit). cbn [and_then].
  rewrite unprocess_escape_characters_expand; rewrite Hback;
    [reflexivity|exact Hfit].
Qed.

(** A text with both escapes, a backslash before another letter, two
    backslashes in a row and a backslash at the end. *)
Lemma escape_round_trip_witness :
  ~ In NEWLINE (lit "a\nb\tc\x\\n" ++ [BACKSLASH])
  /\ ~ In TAB (lit "a\nb\tc\x\\n" ++ [BACKSLASH])
  /\ (Z.of_nat (length (lit "a\nb\tc\x\\n" ++ [BACKSLASH]))
      <= INT_MAX win64)%Z
  /\ and_then
       (process_escape_characters win64
          (lit "a\nb\tc\x\\n" ++ [BACKSLASH]))
       (unprocess_escape_characters win64)
     = Defined (lit "a\nb\tc\x\\n" ++ [BACKSLASH]).
Proof.
  assert (Hnl : ~ In NEWLINE (lit "a\nb\tc\x\\n" ++ [BACKSLASH]))
    by not_in_literal.
  assert (Htab : ~ In TAB (lit "a\nb\tc\x\\n" ++ [BACKSLASH]))
    by not_in_literal.
  assert (Hfit : (Z.of_nat (length (lit "a\nb\tc\x\\n" ++ [BACKSLASH]))
                  <= INT_MAX win64)%Z)
    by (vm_compute; discriminate).
  split; [exact Hnl|]. split; [exact Htab|]. split; [exact Hfit|].
  apply (escape_round_trip win64 (lit "a\nb\tc\x\\n" ++ [BACKSLASH])
           Hnl Htab Hfit).
Defined.

(* ===================================================================== *)
(** * Part III: further properties of the code                            *)
(* ===================================================================== *)

(** ** The scanner, exit by exit *)

Lemma skipn_take_while (p : ascii -> bool) (s : std_string) :
  skipn (length (take_while p s)) s = drop_while p s.
Proof.
  induction s as [|c s IH]; cbn [take_while drop_while]; [reflexivity|].
  destruct (p c); [exact IH|reflexivity].
Qed.

Lemma take_drop_while (p : ascii -> bool) (s : std_string) :
  take_while p s ++ drop_while p s = s.
Proof.
  induction s as [|c s IH]; cbn [take_while drop_while]; [reflexivity|].
  destruct (p c); [cbn [app]; rewrite IH|]; reflexivity.
Qed.

Section ScannerExits.

Variable pf : platform.

Lemma determineidtype_skip (chr : ascii) :
  isskpchr chr = true -> determineidtype pf chr = Symbolic.
Proof.
  intros H. apply isskpchr_In in H. cbn in H.
  destruct pf as [[] bits ibits];
    destruct H as [<- | [<- | [<- | []]]]; reflexivity.
Qed.

Lemma skip_not_unchainable (chr : ascii) :
  isskpchr chr = true -> isunchainablechr chr = false.
Proof.
  intros H. apply isskpchr_In in H. cbn in H.
  destruct H as [<- | [<- | [<- | []]]]; reflexivity.
Qed.

Lemma skip_not_unchainable_conv (chr : ascii) :
  isunchainablechr chr = true -> isskpchr chr = false.
Proof.
  intros H. destruct (isskpchr chr) eqn:Hskp; [|reflexivity].
  rewrite (skip_not_unchainable _ Hskp) in H. discriminate.
Qed.

(** A skip character is appended, and the lexeme is then symbolic. *)
Lemma loop_body_skip (st : scan_state) (chr : ascii) :
  flags_down st ->
  isskpchr chr = true ->
  idtype st = Unknown \/ idtype st = Symbolic ->
  loop_body pf st chr
  = (Accumulate, Next, incr_end pf (push_chr chr (set_idtype Symbolic st))).
Proof.
  intros [Hstr Hcom] Hskp Hty. destruct st as [ty id k s cm].
  cbn in Hstr, Hcom, Hty. subst s cm.
  unfold loop_body. cbn [iscomment isstr].
  rewrite (skip_not_unchainable _ Hskp), Hskp. cbn [orb].
  unfold quote_comment_string. cbn [iscomment isstr negb].
  rewrite (skip_not_quote _ Hskp), (skip_not_hash _ Hskp).
  unfold classify, class_changes. cbn [idtype].
  rewrite (determineidtype_skip _ Hskp).
  destruct Hty as [-> | ->]; reflexivity.
Qed.

(** A bracket ends the loop, and is taken only with the cut index at 0. *)
Lemma loop_body_bracket (st : scan_state) (chr : ascii) :
  flags_down st ->
  isunchainablechr chr = true ->
  loop_body pf st chr
  = (Unchainable, Break,
     if (nextidend st =? 0)%Z then push_chr chr (incr_end pf st) else st).
Proof.
  intros [_ Hcom] Hun. unfold loop_body. rewrite Hcom, Hun. reflexivity.
Qed.

(** Any other character ends the lexeme if there is one, and is passed
    over if there is none. *)
Lemma loop_body_text (st : scan_state) (chr : ascii) :
  flags_down st ->
  istextchr chr = true ->
  loop_body pf st chr
  = if nonempty (nextid st) then (SeparatorStop, Break, st)
    else (Skip, Next, incr_end pf st).
Proof.
  intros [Hstr Hcom] Htext. unfold istextchr in Htext.
  apply andb_true_iff in Htext as [Hskp Hun].
  apply negb_true_iff in Hskp, Hun.
  unfold loop_body. rewrite Hcom, Hun, Hskp, Hstr. cbn [orb].
  destruct (nonempty (nextid st)); reflexivity.
Qed.

(** The three kinds of character. *)
Lemma chr_kind (chr : ascii) :
  isunchainablechr chr = true
  \/ (isskpchr chr = true /\ isunchainablechr chr = false
      /\ istextchr chr = false)
  \/ (istextchr chr = true /\ isskpchr chr = false
      /\ isunchainablechr chr = false).
Proof.
  unfold istextchr.
  destruct (isunchainablechr chr) eqn:Hun; [left; reflexivity|].
  destruct (isskpchr chr) eqn:Hskp; [right; left|right; right]; auto.
Qed.

(** With a lexeme under way, the loop appends the skip characters that
    come next and stops before the first other character. *)
Lemma scan_run (line : std_string) :
  forall st k, flags_down st ->
  idtype st = Symbolic ->
  nextid st <> [] ->
  nextidend st = Z.of_nat (S k) ->
  (Z.of_nat (S k + length line) < 2 ^ Z.pos (size_t_bits pf))%Z ->
  nextid (scan pf st line) = nextid st ++ take_while isskpchr line
  /\ nextidend (scan pf st line)
     = Z.of_nat (S k + length (take_while isskpchr line)).
Proof.
  induction line as [|chr rest IH]; intros st k Hst Hty Hid Hk Hfit;
    cbn [scan take_while length] in *.
  { rewrite app_nil_r, Nat.add_0_r. auto. }
  destruct (chr_kind chr) as [Hun | [(Hskp & Hun & _) | (Htext & Hskp & _)]].
  - rewrite (loop_body_bracket _ Hst Hun), (skip_not_unchainable_conv chr Hun).
    destruct (Z.eqb_spec (nextidend st) 0); [lia|].
    cbn [length]. rewrite app_nil_r, Nat.add_0_r. auto.
  - rewrite (loop_body_skip _ Hst Hskp (or_intror Hty)), Hskp.
    destruct (IH (incr_end pf (push_chr chr (set_idtype Symbolic st))) (S k))
      as [Hid' Hend'].
    + destruct Hst; split; assumption.
    + reflexivity.
    + cbn. destruct (nextid st); discriminate.
    + cbn [incr_end push_chr set_idtype nextidend]. rewrite Hk.
      rewrite size_t_wrap_small; lia.
    + lia.
    + rewrite Hid', Hend'. cbn [incr_end push_chr set_idtype nextid length].
      rewrite <- app_assoc. split; [reflexivity|f_equal; lia].
  - rewrite (loop_body_text _ Hst Htext), Hskp.
    destruct (nextid st) as [|c0 l] eqn:Hnid; [contradiction|].
    cbn [nonempty length Nat.ltb Nat.leb].
    rewrite app_nil_r, Nat.add_0_r. auto.
Qed.

(** With no lexeme yet and the cut index past 0, the loop passes over the
    text, and then takes the run of skip characters that follows it. *)
Lemma scan_text_then_run (line : std_string) :
  forall st k, flags_down st ->
  idtype st = Unknown ->
  nextid st = [] ->
  nextidend st = Z.of_nat (S k) ->
  (Z.of_nat (S k + length line) < 2 ^ Z.pos (size_t_bits pf))%Z ->
  nextid (scan pf st line)
  = take_while isskpchr (drop_while istextchr line)
  /\ nextidend (scan pf st line)
     = Z.of_nat (S k + length (take_while istextchr line)
                 + length (take_while isskpchr (drop_while istextchr line))).
Proof.
  induction line as [|chr rest IH]; intros st k Hst Hty Hid Hk Hfit;
    cbn [scan take_while drop_while length] in *.
  { rewrite !Nat.add_0_r. auto. }
  destruct (chr_kind chr)
    as [Hun | [(Hskp & Hun & Htext) | (Htext & Hskp & _)]].
  - rewrite (loop_body_bracket _ Hst Hun).
    assert (Htext : istextchr chr = false)
      by (unfold istextchr; rewrite Hun, andb_false_r; reflexivity).
    rewrite Htext. cbn [take_while length].
    rewrite (skip_not_unchainable_conv chr Hun).
    destruct (Z.eqb_spec (nextidend st) 0); [lia|].
    cbn [length]. rewrite !Nat.add_0_r. auto.
  - rewrite (loop_body_skip _ Hst Hskp (or_introl Hty)), Htext.
    cbn [take_while length]. rewrite Hskp.
    destruct (@scan_run rest
                (incr_end pf (push_chr chr (set_idtype Symbolic st))) (S k))
      as [Hid' Hend'].
    + destruct Hst; split; assumption.
    + reflexivity.
    + cbn. destruct (nextid st); discriminate.
    + cbn [incr_end push_chr set_idtype nextidend]. rewrite Hk.
      rewrite size_t_wrap_small; lia.
    + lia.
    + rewrite Hid', Hend'. cbn [incr_end push_chr set_idtype nextid length].
      rewrite Hid. split; [reflexivity|f_equal; lia].
  - rewrite (loop_body_text _ Hst Htext), Htext, Hid.
    cbn [nonempty length Nat.ltb Nat.leb].
    destruct (IH (incr_end pf st) (S k)) as [Hid' Hend'].
    + destruct Hst; split; assumption.
    + exact Hty.
    + exact Hid.
    + cbn [incr_end nextidend]. rewrite Hk. rewrite size_t_wrap_small; lia.
    + lia.
    + rewrite Hid', Hend'. split; [reflexivity|f_equal; lia].
Qed.

(** The loop from its initial state, on a line whose length fits
    [size_t]. *)
Lemma scan_init_first_blank_run (line : std_string) :
  (Z.of_nat (length line) < 2 ^ Z.pos (size_t_bits pf))%Z ->
  nextid (scan pf scan_init line) = fst (first_blank_run line)
  /\ skipn (Z.to_nat (nextidend (scan pf scan_init line))) line
     = snd (first_blank_run line).
Proof.
  intros Hfit. destruct line as [|chr rest]; [split; reflexivity|].
  unfold first_blank_run. cbn [scan length] in *.
  pose proof scan_init_flags_down as Hinit.
  destruct (chr_kind chr)
    as [Hun | [(Hskp & Hun & Htext) | (Htext & Hskp & Hun)]]; rewrite Hun.
  - rewrite (loop_body_bracket _ Hinit Hun). cbn [scan_init nextidend Z.eqb].
    cbn [push_chr incr_end nextid nextidend app fst snd Z.add].
    rewrite size_t_wrap_1. split; reflexivity.
  - rewrite (loop_body_skip _ Hinit Hskp (or_introl eq_refl)).
    cbn [drop_while]. rewrite Htext. cbn [take_while drop_while fst snd].
    rewrite Hskp.
    destruct (@scan_run rest
                (incr_end pf (push_chr chr (set_idtype Symbolic scan_init))) 0)
      as [Hid' Hend'];
      try solve [split; reflexivity | reflexivity | discriminate
                | cbn; apply size_t_wrap_1 | lia].
    rewrite Hid', Hend'. split; [reflexivity|].
    rewrite Nat2Z.id. cbn [skipn Nat.add]. apply skipn_take_while.
  - rewrite (loop_body_text _ Hinit Htext).
    cbn [scan_init nextid nonempty length Nat.ltb Nat.leb].
    cbn [drop_while take_while]. rewrite Htext. cbn [fst snd].
    destruct (@scan_text_then_run rest (incr_end pf scan_init) 0)
      as [Hid' Hend'];
      try solve [split; reflexivity | reflexivity
                | cbn; apply size_t_wrap_1 | lia].
    fold scan_init. rewrite Hid', Hend'. split; [reflexivity|].
    rewrite Nat2Z.id. cbn [skipn Nat.add].
    rewrite Nat.add_comm, <- skipn_skipn, !skipn_take_while. reflexivity.
Qed.

(** An iteration that starts with the flags down and a lexeme of no class
    or of the symbolic class takes one of four exits, and leaves the class
    so. *)
Lemma loop_body_plain_exit (st : scan_state) (chr : ascii) :
  flags_down st ->
  idtype st = Unknown \/ idtype st = Symbolic ->
  forall b f st', loop_body pf st chr = (b, f, st') ->
  In b [Skip; Accumulate; SeparatorStop; Unchainable]
  /\ (idtype st' = Unknown \/ idtype st' = Symbolic).
Proof.
  intros Hst Hty b f st'.
  destruct (chr_kind chr) as [Hun | [(Hskp & _) | (Htext & _)]].
  - rewrite (loop_body_bracket _ Hst Hun).
    destruct (nextidend st =? 0)%Z; intros [= <- <- <-];
      (split; [cbn; tauto|exact Hty]).
  - rewrite (loop_body_skip _ Hst Hskp Hty). intros [= <- <- <-].
    split; [cbn; tauto|right; reflexivity].
  - rewrite (loop_body_text _ Hst Htext).
    destruct (nonempty (nextid st)); intros [= <- <- <-];
      (split; [cbn; tauto|exact Hty]).
Qed.

Lemma scan_trace_plain_exits (line : std_string) :
  forall st, flags_down st ->
  idtype st = Unknown \/ idtype st = Symbolic ->
  Forall (fun e => In (snd e) [Skip; Accumulate; SeparatorStop; Unchainable]
                   /\ (idtype (fst e) = Unknown \/ idtype (fst e) = Symbolic))
         (scan_trace pf st line).
Proof.
  induction line as [|chr rest IH]; intros st Hst Hty; cbn [scan_trace];
    [constructor|].
  destruct (loop_body pf st chr) as [[b f] st'] eqn:Hbody.
  destruct (loop_body_plain_exit chr Hst Hty Hbody) as [Hb Hty'].
  destruct (loop_body_flags_down pf chr Hst Hbody) as (Hst' & _).
  destruct f; constructor; cbn [fst snd]; auto.
Qed.

End ScannerExits.

Lemma first_blank_run_split (line : std_string) :
  exists dropped,
    line = dropped ++ fst (first_blank_run line) ++ snd (first_blank_run line)
    /\ forallb istextchr dropped = true.
Proof.
  destruct line as [|chr rest]; [exists []; split; reflexivity|].
  unfold first_blank_run.
  destruct (isunchainablechr chr); [exists []; split; reflexivity|].
  exists (take_while istextchr (chr :: rest)). cbn [fst snd]. split.
  - rewrite take_drop_while, take_drop_while. reflexivity.
  - generalize (chr :: rest). intros l.
    induction l as [|c l IH]; cbn [take_while]; [reflexivity|].
    destruct (istextchr c) eqn:Hc; [cbn [forallb]; rewrite Hc; exact IH|].
    reflexivity.
Qed.

(** X1: on a line whose length fits [size_t], [extract_identifier] returns
    a bracket at the head of the line, alone, or else the first run of skip
    characters of the line, after passing over the text before it; the
    line is then what follows that lexeme. The text passed over, the lexeme
    and the new line make up the old line. *)
Theorem extract_identifier_first_blank_run
    (pf : platform) (line : std_string) (separator : ascii) :
  (Z.of_nat (length line) < 2 ^ Z.pos (size_t_bits pf))%Z ->
  extract_identifier pf line separator = Returned (first_blank_run line)
  /\ exists dropped,
       line = dropped ++ fst (first_blank_run line)
                      ++ snd (first_blank_run line)
       /\ forallb istextchr dropped = true.
Proof.
  intros Hfit. split; [|apply first_blank_run_split].
  rewrite extract_identifier_returns.
  destruct (scan_init_first_blank_run pf line Hfit) as [-> ->].
  destruct (first_blank_run line); reflexivity.
Qed.

(** A keyword, a number, spaces, an operator: the spaces are returned. *)
Lemma extract_identifier_first_blank_run_witness :
  (Z.of_nat (length (lit "zylo x = 5 over"))
   < 2 ^ Z.pos (size_t_bits win64))%Z
  /\ extract_identifier win64 (lit "zylo x = 5 over") " "%char
     = Returned (lit " ", lit "x = 5 over").
Proof.
  split; [vm_compute; reflexivity|].
  apply (extract_identifier_first_blank_run win64 (lit "zylo x = 5 over") " "%char).
  vm_compute; reflexivity.
Defined.

(** X2: on a line that is not empty and whose length fits [size_t], a call
    of [extract_identifier] leaves a line that is shorter, and returns a
    lexeme no longer than what it has removed. *)
Theorem extract_identifier_consumes
    (pf : platform) (line : std_string) (separator : ascii) :
  line <> [] ->
  (Z.of_nat (length line) < 2 ^ Z.pos (size_t_bits pf))%Z ->
  exists lexeme rest,
    extract_identifier pf line separator = Returned (lexeme, rest)
    /\ length rest < length line
    /\ length lexeme + length rest <= length line.
Proof.
  intros Hne Hfit.
  destruct (@extract_identifier_progress pf line separator Hne Hfit)
    as (lexeme & rest & Hret & Hshort).
  exists lexeme, rest. split; [exact Hret|]. split; [exact Hshort|].
  rewrite extract_identifier_returns in Hret.
  destruct (scan_init_first_blank_run pf line Hfit) as [Hid Hrest].
  rewrite Hid, Hrest in Hret. injection Hret as <- <-.
  destruct (first_blank_run_split line) as (dropped & Hsplit & _).
  rewrite Hsplit at 3. rewrite !length_app. lia.
Qed.

Lemma extract_identifier_consumes_witness :
  lit "over" <> []
  /\ (Z.of_nat (length (lit "over")) < 2 ^ Z.pos (size_t_bits win64))%Z
  /\ exists lexeme rest,
       extract_identifier win64 (lit "over") " "%char = Returned (lexeme, rest)
       /\ length rest < length (lit "over")
       /\ length lexeme + length rest <= length (lit "over").
Proof.
  split; [discriminate|]. split; [vm_compute; reflexivity|].
  apply (@extract_identifier_consumes win64 (lit "over") " "%char);
    [discriminate|vm_compute; reflexivity].
Defined.

(** X3: the loop of [extract_identifier] leaves its body by four exits
    only: a character passed over, a skip character appended, the stop
    before a character that is not a skip character, and the bracket. The
    lexeme never has the class of letters or of digits, so the exits of the
    numeric and the class rules are not taken, on any line. *)
Theorem extract_identifier_plain_exits (pf : platform) (line : std_string) :
  Forall (fun e => In (snd e) [Skip; Accumulate; SeparatorStop; Unchainable]
                   /\ idtype (fst e) <> Alpha /\ idtype (fst e) <> Numeric)
         (scan_trace pf scan_init line).
Proof.
  eapply Forall_impl;
    [|apply (@scan_trace_plain_exits pf line scan_init scan_init_flags_down);
      left; reflexivity].
  intros [st b] [Hb Hty]; cbn [fst snd] in *. split; [exact Hb|].
  destruct Hty as [-> | ->]; split; discriminate.
Qed.

(** X4: [determineidtype] does not depend on the platform: letters and the
    underscore are alphabetic, digits, the dot and the minus are numeric,
    every other character, also one above 127, is symbolic; none has the
    class [Unknown]. *)
Theorem determineidtype_by_code_unit (pf : platform) (chr : ascii) :
  determineidtype pf chr = class_of_code_unit chr
  /\ determineidtype pf chr <> Unknown.
Proof.
  assert (H : determineidtype pf chr = class_of_code_unit chr).
  { destruct pf as [[] bits ibits];
      destruct chr as [[] [] [] [] [] [] [] []]; reflexivity. }
  split; [exact H|]. rewrite H. unfold class_of_code_unit.
  destruct (_ || _); [discriminate|]. destruct (_ || _); discriminate.
Qed.

Lemma blank_lexeme_decide (lexeme : std_string) :
  blank_lexeme lexeme -> blank_lexemeb lexeme = true.
Proof.
  intros [-> | c Hc -> | Hne Hall]; cbn [blank_lexemeb].
  - reflexivity.
  - apply isunchainablechr_In in Hc. rewrite Hc. reflexivity.
  - assert (Hforall : forallb isskpchr lexeme = true).
    { apply forallb_forall. rewrite Forall_forall in Hall.
      intros c Hc. apply isskpchr_In, Hall, Hc. }
    destruct lexeme as [|c [|d l]]; [contradiction| |exact Hforall].
    cbn [forallb] in Hforall. rewrite andb_true_r in Hforall.
    cbn [blank_lexemeb]. rewrite Hforall. apply orb_true_r.
Qed.

Lemma scan_init_blank (pf : platform) (line : std_string) :
  (Z.of_nat (length line) < 2 ^ Z.pos (size_t_bits pf))%Z ->
  blank_lexeme (nextid (scan pf scan_init line)).
Proof.
  intros Hfit.
  destruct (@scan_lexeme_shape pf line scan_init 0 scan_init_flags_down)
    as [Hall | (c & Hc & ->)];
    try solve [reflexivity | constructor | cbn; lia].
  - destruct (nextid (scan pf scan_init line)) as [|c0 l] eqn:Hid.
    + apply blank_empty; reflexivity.
    + apply blank_skips; [discriminate|].
      eapply Forall_impl; [|exact Hall]. intros x. apply isskpchr_In.
  - eapply blank_bracket; [apply isunchainablechr_In; exact Hc|reflexivity].
Qed.

(** X5: of all the literals of the spelling table, [extract_identifier]
    can return the four brackets only: a lexeme that it returns, on a line
    whose length fits [size_t], and that is a spelling of a token type, is
    a spelling of [OpenParen], [CloseParen], [OpenBracket] or
    [CloseBracket]. *)
Theorem extract_identifier_returns_bracket_spellings_only
    (pf : platform) (line : std_string) (separator : ascii)
    (lexeme rest : std_string) (t : TokenType.t) :
  (Z.of_nat (length line) < 2 ^ Z.pos (size_t_bits pf))%Z ->
  extract_identifier pf line separator = Returned (lexeme, rest) ->
  In lexeme (tk_spellings t) ->
  In t [TokenType.OpenParen; TokenType.CloseParen;
        TokenType.OpenBracket; TokenType.CloseBracket].
Proof.
  intros Hfit Hret Hin.
  assert (Hblank : blank_lexemeb lexeme = true).
  { rewrite extract_identifier_returns in Hret. injection Hret as <- _.
    apply blank_lexeme_decide, scan_init_blank, Hfit. }
  destruct t; cbn in Hin |- *;
    repeat (destruct Hin as [<- | Hin]; [try discriminate Hblank; tauto|]);
    contradiction.
Qed.

Lemma extract_identifier_returns_bracket_spellings_only_witness :
  (Z.of_nat (length (lit "[1]")) < 2 ^ Z.pos (size_t_bits win64))%Z
  /\ extract_identifier win64 (lit "[1]") " "%char = Returned (lit "[", lit "1]")
  /\ In (lit "[") (tk_spellings TokenType.OpenBracket)
  /\ In TokenType.OpenBracket
        [TokenType.OpenParen; TokenType.CloseParen;
         TokenType.OpenBracket; TokenType.CloseBracket].
Proof.
  assert (Hfit : (Z.of_nat (length (lit "[1]"))
                  < 2 ^ Z.pos (size_t_bits win64))%Z)
    by (vm_compute; reflexivity).
  assert (Hret : extract_identifier win64 (lit "[1]") " "%char
                 = Returned (lit "[", lit "1]"))
    by (vm_compute; reflexivity).
  assert (Hin : In (lit "[") (tk_spellings TokenType.OpenBracket))
    by (left; reflexivity).
  repeat split; try assumption.
  apply (extract_identifier_returns_bracket_spellings_only
           win64 (lit "[1]") " " TokenType.OpenBracket Hfit Hret Hin).
Defined.

(** ** The escape transforms, further *)

Lemma has_escape_cons (c : ascii) (rest : std_string) :
  has_escape (c :: rest)
  = Ascii.eqb c BACKSLASH && starts_escape_letter rest || has_escape rest.
Proof. reflexivity. Qed.

(** A backslash that no [n] and no [t] follows stays. *)
Lemma collapse_backslash_kept (rest : std_string) :
  starts_escape_letter rest = false ->
  collapse_escapes (BACKSLASH :: rest) = BACKSLASH :: collapse_escapes rest.
Proof.
  intros H. cbn [collapse_escapes]. rewrite Ascii.eqb_refl.
  destruct rest as [|d rest']; [reflexivity|].
  cbn [starts_escape_letter] in H. apply orb_false_iff in H as [-> ->].
  reflexivity.
Qed.

Lemma collapse_other_kept (c : ascii) (rest : std_string) :
  c <> BACKSLASH ->
  collapse_escapes (c :: rest) = c :: collapse_escapes rest.
Proof.
  intros Hc. cbn [collapse_escapes].
  destruct (Ascii.eqb_spec c BACKSLASH); [contradiction|reflexivity].
Qed.

(** The three ways of [collapse_escapes] on a string that is not empty. *)
Lemma collapse_cases (c : ascii) (rest : std_string) :
  (exists rest', c = BACKSLASH /\ rest = "n"%char :: rest'
                 /\ collapse_escapes (c :: rest)
                    = NEWLINE :: collapse_escapes rest')
  \/ (exists rest', c = BACKSLASH /\ rest = "t"%char :: rest'
                    /\ collapse_escapes (c :: rest)
                       = TAB :: collapse_escapes rest')
  \/ ((Ascii.eqb c BACKSLASH && starts_escape_letter rest) = false
      /\ collapse_escapes (c :: rest) = c :: collapse_escapes rest).
Proof.
  destruct (Ascii.eqb_spec c BACKSLASH) as [-> | Hc].
  - destruct rest as [|d rest'].
    + right; right. split; reflexivity.
    + destruct (Ascii.eqb_spec d "n") as [-> | Hn].
      { left. exists rest'. repeat split. }
      destruct (Ascii.eqb_spec d "t") as [-> | Ht].
      { right; left. exists rest'. repeat split. }
      right; right.
      assert (Hd : starts_escape_letter (d :: rest') = false).
      { cbn [starts_escape_letter].
        destruct (Ascii.eqb_spec d "n"); [contradiction|].
        destruct (Ascii.eqb_spec d "t"); [contradiction|]. reflexivity. }
      split; [rewrite Hd; reflexivity|apply collapse_backslash_kept, Hd].
  - right; right. split; [reflexivity|apply collapse_other_kept, Hc].
Qed.

Lemma collapse_length_le (n : nat) :
  forall s, length s <= n ->
  length (collapse_escapes s) <= length s
  /\ (has_escape s = true -> length (collapse_escapes s) < length s).
Proof.
  induction n as [|n IH]; intros s Hlen.
  { destruct s; [split; [reflexivity|discriminate]|cbn [length] in Hlen; lia]. }
  destruct s as [|c rest]; [split; [reflexivity|discriminate]|].
  cbn [length] in Hlen. rewrite has_escape_cons.
  destruct (collapse_cases c rest)
    as [(rest' & -> & -> & ->) | [(rest' & -> & -> & ->) | (Hno & ->)]].
  - destruct (IH rest') as [Hle _]; [cbn [length] in Hlen; lia|].
    cbn [length]. split; intros; lia.
  - destruct (IH rest') as [Hle _]; [cbn [length] in Hlen; lia|].
    cbn [length]. split; intros; lia.
  - destruct (IH rest) as [Hle Hlt]; [lia|]. rewrite Hno. cbn [orb length].
    split; [lia|]. intros H. specialize (Hlt H). lia.
Qed.

Lemma collapse_no_escape (s : std_string) :
  has_escape s = false -> collapse_escapes s = s.
Proof.
  induction s as [|c rest IH]; [reflexivity|].
  rewrite has_escape_cons. intros H. apply orb_false_iff in H as [Hhead Hrest].
  destruct (collapse_cases c rest)
    as [(rest' & -> & -> & _) | [(rest' & -> & -> & _) | (_ & ->)]];
    try discriminate Hhead.
  rewrite (IH Hrest). reflexivity.
Qed.

(** What [collapse_escapes] starts with: [n] or [t] only if the string
    does. *)
Lemma collapse_starts_escape_letter (s : std_string) :
  starts_escape_letter s = false ->
  starts_escape_letter (collapse_escapes s) = false.
Proof.
  destruct s as [|c rest]; [reflexivity|]. intros H.
  destruct (collapse_cases c rest)
    as [(rest' & -> & -> & ->) | [(rest' & -> & -> & ->) | (_ & ->)]];
    [reflexivity|reflexivity|exact H].
Qed.

Lemma collapse_has_no_escape (n : nat) :
  forall s, length s <= n -> has_escape (collapse_escapes s) = false.
Proof.
  induction n as [|n IH]; intros s Hlen.
  { destruct s; [reflexivity|cbn [length] in Hlen; lia]. }
  destruct s as [|c rest]; [reflexivity|]. cbn [length] in Hlen.
  destruct (collapse_cases c rest)
    as [(rest' & -> & -> & ->) | [(rest' & -> & -> & ->) | (Hno & ->)]].
  - rewrite has_escape_cons. apply IH. cbn [length] in Hlen. lia.
  - rewrite has_escape_cons. apply IH. cbn [length] in Hlen. lia.
  - rewrite has_escape_cons, (IH rest) by lia. rewrite orb_false_r.
    apply andb_false_iff in Hno as [Hc | Hrest]; [rewrite Hc; reflexivity|].
    rewrite (collapse_starts_escape_letter _ Hrest). apply andb_false_r.
Qed.

Lemma expand_cons (c : ascii) (rest : std_string) :
  expand_escapes (c :: rest) = expand_chr c ++ expand_escapes rest.
Proof. reflexivity. Qed.

Lemma expand_chr_plain (c : ascii) :
  is_nl_tab c = false -> expand_chr c = [c].
Proof.
  unfold is_nl_tab, expand_chr. intros H.
  apply orb_false_iff in H as [-> ->]. reflexivity.
Qed.

(** Expanding after collapsing is expanding. *)
Lemma expand_collapse_all (n : nat) :
  forall s, length s <= n ->
  expand_escapes (collapse_escapes s) = expand_escapes s.
Proof.
  induction n as [|n IH]; intros s Hlen.
  { destruct s; [reflexivity|cbn [length] in Hlen; lia]. }
  destruct s as [|c rest]; [reflexivity|]. cbn [length] in Hlen.
  destruct (collapse_cases c rest)
    as [(rest' & -> & -> & ->) | [(rest' & -> & -> & ->) | (_ & ->)]].
  - rewrite !expand_cons, IH by (cbn [length] in Hlen; lia). reflexivity.
  - rewrite !expand_cons, IH by (cbn [length] in Hlen; lia). reflexivity.
  - rewrite !expand_cons, IH by lia. reflexivity.
Qed.

Lemma expand_starts_escape_letter (s : std_string) :
  starts_escape_letter s = false ->
  starts_escape_letter (expand_escapes s) = false.
Proof.
  destruct s as [|d rest]; [reflexivity|]. intros H. rewrite expand_cons.
  unfold expand_chr.
  destruct (Ascii.eqb d NEWLINE); [reflexivity|].
  destruct (Ascii.eqb d TAB); [reflexivity|]. exact H.
Qed.

(** Collapsing after expanding is collapsing. *)
Lemma collapse_expand_all (n : nat) :
  forall s, length s <= n ->
  collapse_escapes (expand_escapes s) = collapse_escapes s.
Proof.
  induction n as [|n IH]; intros s Hlen.
  { destruct s; [reflexivity|cbn [length] in Hlen; lia]. }
  destruct s as [|c rest]; [reflexivity|]. cbn [length] in Hlen.
  rewrite expand_cons. unfold expand_chr.
  destruct (Ascii.eqb_spec c NEWLINE) as [-> | Hnl].
  { cbn [app collapse_escapes]. rewrite Ascii.eqb_refl.
    change (Ascii.eqb NEWLINE BACKSLASH) with false. cbn [Ascii.eqb].
    rewrite IH by lia. reflexivity. }
  destruct (Ascii.eqb_spec c TAB) as [-> | Htab].
  { cbn [app collapse_escapes]. rewrite Ascii.eqb_refl.
    change (Ascii.eqb TAB BACKSLASH) with false.
    change (Ascii.eqb "t" "n") with false. rewrite Ascii.eqb_refl.
    rewrite IH by lia. reflexivity. }
  cbn [app].
  destruct (collapse_cases c rest)
    as [(rest' & -> & -> & ->) | [(rest' & -> & -> & ->) | (Hno & ->)]].
  - rewrite expand_cons. change (expand_chr "n") with ["n"%char]. cbn [app].
    cbn [collapse_escapes]. rewrite !Ascii.eqb_refl.
    rewrite IH by (cbn [length] in Hlen; lia). reflexivity.
  - rewrite expand_cons. change (expand_chr "t") with ["t"%char]. cbn [app].
    cbn [collapse_escapes]. rewrite !Ascii.eqb_refl.
    change (Ascii.eqb "t" "n") with false.
    rewrite IH by (cbn [length] in Hlen; lia). reflexivity.
  - destruct (Ascii.eqb_spec c BACKSLASH) as [-> | Hc].
    + cbn [andb] in Hno.
      rewrite (collapse_backslash_kept _ (expand_starts_escape_letter _ Hno)).
      rewrite IH by lia. reflexivity.
    + rewrite (collapse_other_kept _ Hc), IH by lia. reflexivity.
Qed.

Lemma expand_no_nl_tab (s : std_string) :
  forallb (fun c => negb (is_nl_tab c)) (expand_escapes s) = true.
Proof.
  induction s as [|c rest IH]; [reflexivity|].
  rewrite expand_cons, forallb_app, IH, andb_true_r.
  unfold expand_chr.
  destruct (Ascii.eqb c NEWLINE) eqn:Hnl; [reflexivity|].
  destruct (Ascii.eqb c TAB) eqn:Htab; [reflexivity|].
  cbn [forallb]. unfold is_nl_tab. rewrite Hnl, Htab. reflexivity.
Qed.

Lemma expand_plain (s : std_string) :
  forallb (fun c => negb (is_nl_tab c)) s = true -> expand_escapes s = s.
Proof.
  induction s as [|c rest IH]; [reflexivity|]. cbn [forallb]. intros H.
  apply andb_true_iff in H as [Hc Hrest]. apply negb_true_iff in Hc.
  rewrite expand_cons, (expand_chr_plain _ Hc), (IH Hrest). reflexivity.
Qed.

Lemma expand_length (s : std_string) :
  length (expand_escapes s) = length s + length (filter is_nl_tab s).
Proof.
  induction s as [|c rest IH]; [reflexivity|].
  rewrite expand_cons, length_app, IH. cbn [filter length].
  unfold expand_chr, is_nl_tab.
  destruct (Ascii.eqb c NEWLINE); [cbn; lia|].
  destruct (Ascii.eqb c TAB); cbn; lia.
Qed.

Lemma expanded_length_ge (s : std_string) : length s <= expanded_length s.
Proof. unfold expanded_length. lia. Qed.

Lemma expanded_length_expand (s : std_string) :
  length (expand_escapes s) = expanded_length s.
Proof. apply expand_length. Qed.

(** [unprocess_escape_characters], when the expanded length is at most
    [INT_MAX], runs without overflow. *)
Lemma unprocess_defined (pf : platform) (s : std_string) :
  (Z.of_nat (expanded_length s) <= INT_MAX pf)%Z ->
  unprocess_escape_characters pf s = Defined (expand_escapes s).
Proof.
  intros Hfit. apply unprocess_escape_characters_expand.
  rewrite expanded_length_expand. exact Hfit.
Qed.

(** Checks a bound on a literal. *)
Ltac fits_int := vm_compute; discriminate.

(** X6: on a string whose expanded length is at most [INT_MAX],
    [unprocess_escape_characters] after [process_escape_characters] runs
    without overflow and returns what [unprocess_escape_characters] alone
    returns: the escapes that the first pass collapses are written again
    by the second, next to the newlines and tabs that the string had of
    its own. *)
Theorem unprocess_after_process (pf : platform) (s : std_string) :
  (Z.of_nat (expanded_length s) <= INT_MAX pf)%Z ->
  exists t,
    unprocess_escape_characters pf s = Defined t
    /\ and_then (process_escape_characters pf s)
                (unprocess_escape_characters pf) = Defined t.
Proof.
  intros Hfit. exists (expand_escapes s).
  split; [apply unprocess_defined, Hfit|].
  pose proof (expanded_length_ge s) as Hge.
  rewrite process_escape_characters_collapse by lia. cbn [and_then].
  pose proof (@expand_collapse_all (length s) s (le_n _)) as Heq.
  rewrite unprocess_escape_characters_expand; rewrite Heq; [reflexivity|].
  rewrite expanded_length_expand. exact Hfit.
Qed.

(** A text with an escape, a newline of its own and a backslash. *)
Lemma unprocess_after_process_witness :
  (Z.of_nat (expanded_length (lit "a\nb" ++ [NEWLINE; BACKSLASH]))
   <= INT_MAX win64)%Z
  /\ exists t,
       unprocess_escape_characters win64 (lit "a\nb" ++ [NEWLINE; BACKSLASH])
       = Defined t
       /\ and_then
            (process_escape_characters win64
               (lit "a\nb" ++ [NEWLINE; BACKSLASH]))
            (unprocess_escape_characters win64) = Defined t.
Proof.
  split; [fits_int|].
  apply (unprocess_after_process win64 (lit "a\nb" ++ [NEWLINE; BACKSLASH])).
  fits_int.
Defined.

(** X7: on a string whose expanded length is at most [INT_MAX],
    [process_escape_characters] after [unprocess_escape_characters] runs
    without overflow and returns what [process_escape_characters] alone
    returns. *)
Theorem process_after_unprocess (pf : platform) (s : std_string) :
  (Z.of_nat (expanded_length s) <= INT_MAX pf)%Z ->
  exists t,
    process_escape_characters pf s = Defined t
    /\ and_then (unprocess_escape_characters pf s)
                (process_escape_characters pf) = Defined t.
Proof.
  intros Hfit. exists (collapse_escapes s).
  pose proof (expanded_length_ge s) as Hge.
  split; [apply process_escape_characters_collapse; lia|].
  rewrite (unprocess_defined pf s Hfit). cbn [and_then].
  rewrite process_escape_characters_collapse
    by (rewrite expanded_length_expand; exact Hfit).
  rewrite (@collapse_expand_all (length s) s (le_n _)). reflexivity.
Qed.

Lemma process_after_unprocess_witness :
  (Z.of_nat (expanded_length (lit "a\nb" ++ [NEWLINE; BACKSLASH]))
   <= INT_MAX win64)%Z
  /\ exists t,
       process_escape_characters win64 (lit "a\nb" ++ [NEWLINE; BACKSLASH])
       = Defined t
       /\ and_then
            (unprocess_escape_characters win64
               (lit "a\nb" ++ [NEWLINE; BACKSLASH]))
            (process_escape_characters win64) = Defined t.
Proof.
  split; [fits_int|].
  apply (process_after_unprocess win64 (lit "a\nb" ++ [NEWLINE; BACKSLASH])).
  fits_int.
Defined.

(** X8: on a string of at most [INT_MAX] characters,
    [process_escape_characters] leaves the string as it is exactly when
    the string has no backslash with [n] or [t] right after it; other
    backslashes, also one at the end, stay. *)
Theorem process_fixed_point (pf : platform) (s : std_string) :
  (Z.of_nat (length s) <= INT_MAX pf)%Z ->
  process_escape_characters pf s = Defined s <-> has_escape s = false.
Proof.
  intros Hfit. rewrite (process_escape_characters_collapse pf s Hfit). split.
  - intros [= Heq]. destruct (has_escape s) eqn:Hesc; [|reflexivity].
    destruct (@collapse_length_le (length s) s (le_n _)) as [_ Hlt].
    specialize (Hlt Hesc). rewrite Heq in Hlt. lia.
  - intros Hno. rewrite (collapse_no_escape _ Hno). reflexivity.
Qed.

(** Backslashes, none of them before [n] or [t]. *)
Lemma process_fixed_point_witness :
  (Z.of_nat (length (lit "a\\b\x" ++ [BACKSLASH])) <= INT_MAX win64)%Z
  /\ (process_escape_characters win64 (lit "a\\b\x" ++ [BACKSLASH])
      = Defined (lit "a\\b\x" ++ [BACKSLASH])
      <-> has_escape (lit "a\\b\x" ++ [BACKSLASH]) = false).
Proof.
  split; [fits_int|].
  apply (process_fixed_point win64 (lit "a\\b\x" ++ [BACKSLASH])).
  fits_int.
Defined.

(** X9: on a string of at most [INT_MAX] characters,
    [process_escape_characters] runs without overflow; what it returns has
    no backslash with [n] or [t] right after it, so a second pass changes
    nothing; and it is no longer than the string was. *)
Theorem process_leaves_no_escape (pf : platform) (s : std_string) :
  (Z.of_nat (length s) <= INT_MAX pf)%Z ->
  exists t,
    process_escape_characters pf s = Defined t
    /\ has_escape t = false
    /\ process_escape_characters pf t = Defined t
    /\ length t <= length s.
Proof.
  intros Hfit. exists (collapse_escapes s).
  assert (Hno : has_escape (collapse_escapes s) = false)
    by (apply (@collapse_has_no_escape (length s)); lia).
  destruct (@collapse_length_le (length s) s (le_n _)) as [Hle _].
  split; [apply process_escape_characters_collapse, Hfit|].
  split; [exact Hno|]. split; [|exact Hle].
  rewrite process_escape_characters_collapse by lia.
  rewrite (collapse_no_escape _ Hno). reflexivity.
Qed.

Lemma process_leaves_no_escape_witness :
  (Z.of_nat (length (lit "\\n\t" ++ [BACKSLASH])) <= INT_MAX win64)%Z
  /\ exists t,
       process_escape_characters win64 (lit "\\n\t" ++ [BACKSLASH]) = Defined t
       /\ has_escape t = false
       /\ process_escape_characters win64 t = Defined t
       /\ length t <= length (lit "\\n\t" ++ [BACKSLASH]).
Proof.
  split; [fits_int|].
  apply (process_leaves_no_escape win64 (lit "\\n\t" ++ [BACKSLASH])). fits_int.
Defined.

(** X10: on a string whose expanded length is at most [INT_MAX],
    [unprocess_escape_characters] runs without overflow; what it returns
    has no newline and no tab, and is longer than the string by the number
    of newlines and tabs of the string; a second pass changes nothing; and
    the string is left as it is exactly when it has no newline and no
    tab. *)
Theorem unprocess_output (pf : platform) (s : std_string) :
  (Z.of_nat (expanded_length s) <= INT_MAX pf)%Z ->
  exists t,
    unprocess_escape_characters pf s = Defined t
    /\ forallb (fun c => negb (is_nl_tab c)) t = true
    /\ length t = length s + length (filter is_nl_tab s)
    /\ unprocess_escape_characters pf t = Defined t
    /\ (t = s <-> forallb (fun c => negb (is_nl_tab c)) s = true).
Proof.
  intros Hfit. exists (expand_escapes s).
  split; [apply unprocess_defined, Hfit|].
  split; [apply expand_no_nl_tab|]. split; [apply expand_length|].
  pose proof (expand_plain _ (expand_no_nl_tab s)) as Hagain.
  split; [|split].
  - rewrite unprocess_escape_characters_expand; rewrite Hagain;
      [reflexivity|].
    rewrite expanded_length_expand. exact Hfit.
  - intros Heq. rewrite <- Heq. apply expand_no_nl_tab.
  - apply expand_plain.
Qed.

(** A text with a newline and a tab. *)
Lemma unprocess_output_witness :
  (Z.of_nat (expanded_length (lit "a" ++ [NEWLINE] ++ lit "b" ++ [TAB]))
   <= INT_MAX win64)%Z
  /\ exists t,
       unprocess_escape_characters win64
         (lit "a" ++ [NEWLINE] ++ lit "b" ++ [TAB]) = Defined t
       /\ forallb (fun c => negb (is_nl_tab c)) t = true
       /\ length t
          = length (lit "a" ++ [NEWLINE] ++ lit "b" ++ [TAB])
            + length (filter is_nl_tab
                        (lit "a" ++ [NEWLINE] ++ lit "b" ++ [TAB]))
       /\ unprocess_escape_characters win64 t = Defined t
       /\ (t = lit "a" ++ [NEWLINE] ++ lit "b" ++ [TAB]
           <-> forallb (fun c => negb (is_nl_tab c))
                 (lit "a" ++ [NEWLINE] ++ lit "b" ++ [TAB]) = true).
Proof.
  split; [fits_int|].
  apply (unprocess_output win64 (lit "a" ++ [NEWLINE] ++ lit "b" ++ [TAB])).
  fits_int.
Defined.

(** X11: [unprocess_escape_characters] works character by character: on
    two strings put together, of an expanded length of at most [INT_MAX],
    it returns what it returns on each, put together. *)
Theorem unprocess_app (pf : platform) (s1 s2 : std_string) :
  (Z.of_nat (expanded_length (s1 ++ s2)) <= INT_MAX pf)%Z ->
  exists t1 t2,
    unprocess_escape_characters pf s1 = Defined t1
    /\ unprocess_escape_characters pf s2 = Defined t2
    /\ unprocess_escape_characters pf (s1 ++ s2) = Defined (t1 ++ t2).
Proof.
  intros Hfit. exists (expand_escapes s1), (expand_escapes s2).
  assert (Hsum : expanded_length (s1 ++ s2)
                 = expanded_length s1 + expanded_length s2).
  { unfold expanded_length. rewrite filter_app, !length_app. lia. }
  split; [apply unprocess_defined; lia|].
  split; [apply unprocess_defined; lia|].
  rewrite (unprocess_defined pf (s1 ++ s2) Hfit).
  unfold expand_escapes. rewrite flat_map_app. reflexivity.
Qed.

Lemma unprocess_app_witness :
  (Z.of_nat (expanded_length ((lit "a" ++ [NEWLINE]) ++ (TAB :: lit "b")))
   <= INT_MAX win64)%Z
  /\ exists t1 t2,
       unprocess_escape_characters win64 (lit "a" ++ [NEWLINE]) = Defined t1
       /\ unprocess_escape_characters win64 (TAB :: lit "b") = Defined t2
       /\ unprocess_escape_characters win64
            ((lit "a" ++ [NEWLINE]) ++ (TAB :: lit "b"))
          = Defined (t1 ++ t2).
Proof.
  split; [fits_int|].
  apply (unprocess_app win64 (lit "a" ++ [NEWLINE]) (TAB :: lit "b")).
  fits_int.
Defined.

(** X12: on a string with no backslash that [n] or [t] follows, also one
    with newlines and tabs, and of an expanded length of at most
    [INT_MAX], [unprocess_escape_characters] and then
    [process_escape_characters] run without overflow and give the string
    back. *)
Theorem process_unprocess_round_trip (pf : platform) (s : std_string) :
  has_escape s = false ->
  (Z.of_nat (expanded_length s) <= INT_MAX pf)%Z ->
  and_then (unprocess_escape_characters pf s) (process_escape_characters pf)
  = Defined s.
Proof.
  intros Hno Hfit.
  rewrite (unprocess_defined pf s Hfit). cbn [and_then].
  rewrite process_escape_characters_collapse
    by (rewrite expanded_length_expand; exact Hfit).
  rewrite (@collapse_expand_all (length s) s (le_n _)).
  rewrite (collapse_no_escape _ Hno). reflexivity.
Qed.

(** A text with a newline, a tab, a backslash before a newline and a
    backslash at the end. *)
Lemma process_unprocess_round_trip_witness :
  has_escape (lit "a" ++ [NEWLINE; TAB; BACKSLASH; NEWLINE; BACKSLASH]) = false
  /\ (Z.of_nat (expanded_length
                  (lit "a" ++ [NEWLINE; TAB; BACKSLASH; NEWLINE; BACKSLASH]))
      <= INT_MAX win64)%Z
  /\ and_then
       (unprocess_escape_characters win64
          (lit "a" ++ [NEWLINE; TAB; BACKSLASH; NEWLINE; BACKSLASH]))
       (process_escape_characters win64)
     = Defined (lit "a" ++ [NEWLINE; TAB; BACKSLASH; NEWLINE; BACKSLASH]).
Proof.
  split; [reflexivity|]. split; [fits_int|].
  apply (process_unprocess_round_trip win64
           (lit "a" ++ [NEWLINE; TAB; BACKSLASH; NEWLINE; BACKSLASH]));
    [reflexivity|fits_int].
Defined.

Lemma collapse_kept (c : ascii) (rest : std_string) :
  (Ascii.eqb c BACKSLASH && starts_escape_letter rest) = false ->
  collapse_escapes (c :: rest) = c :: collapse_escapes rest.
Proof.
  intros H. destruct (Ascii.eqb_spec c BACKSLASH) as [-> | Hc].
  - apply collapse_backslash_kept. exact H.
  - apply collapse_other_kept, Hc.
Qed.

Lemma collapse_app (n : nat) :
  forall s1 s2, length s1 <= n ->
  last s1 NUL <> BACKSLASH ->
  collapse_escapes (s1 ++ s2) = collapse_escapes s1 ++ collapse_escapes s2.
Proof.
  induction n as [|n IH]; intros s1 s2 Hlen Hlast.
  { destruct s1; [reflexivity|cbn [length] in Hlen; lia]. }
  destruct s1 as [|c rest]; [reflexivity|]. cbn [length] in Hlen.
  destruct (collapse_cases c rest)
    as [(rest' & -> & -> & ->) | [(rest' & -> & -> & ->) | (Hno & ->)]].
  - cbn [app collapse_escapes]. rewrite !Ascii.eqb_refl.
    rewrite IH; [reflexivity|cbn [length] in Hlen; lia|].
    destruct rest'; [discriminate|exact Hlast].
  - cbn [app collapse_escapes]. rewrite !Ascii.eqb_refl.
    change (Ascii.eqb "t" "n") with false.
    rewrite IH; [reflexivity|cbn [length] in Hlen; lia|].
    destruct rest'; [discriminate|exact Hlast].
  - destruct rest as [|d rest'].
    + cbn [app collapse_escapes last] in *.
      destruct (Ascii.eqb_spec c BACKSLASH); [contradiction|reflexivity].
    + change ((c :: d :: rest') ++ s2) with (c :: (d :: rest') ++ s2).
      rewrite collapse_kept by exact Hno.
      rewrite IH; [reflexivity|lia|exact Hlast].
Qed.

(** X16: [process_escape_characters] on two strings put together, of at
    most [INT_MAX] characters, returns what it returns on each, put
    together, when the first string does not end with a backslash. *)
Theorem process_app (pf : platform) (s1 s2 : std_string) :
  last s1 NUL <> BACKSLASH ->
  (Z.of_nat (length (s1 ++ s2)) <= INT_MAX pf)%Z ->
  exists t1 t2,
    process_escape_characters pf s1 = Defined t1
    /\ process_escape_characters pf s2 = Defined t2
    /\ process_escape_characters pf (s1 ++ s2) = Defined (t1 ++ t2).
Proof.
  intros Hlast Hfit. exists (collapse_escapes s1), (collapse_escapes s2).
  pose proof Hfit as Hsum. rewrite length_app in Hsum.
  split; [apply process_escape_characters_collapse; lia|].
  split; [apply process_escape_characters_collapse; lia|].
  rewrite (process_escape_characters_collapse pf (s1 ++ s2) Hfit).
  rewrite (@collapse_app (length s1) s1 s2 (le_n _) Hlast). reflexivity.
Qed.

(** Two strings with an escape each. *)
Lemma process_app_witness :
  last (lit "a\n") NUL <> BACKSLASH
  /\ (Z.of_nat (length (lit "a\n" ++ lit "\tb")) <= INT_MAX win64)%Z
  /\ exists t1 t2,
       process_escape_characters win64 (lit "a\n") = Defined t1
       /\ process_escape_characters win64 (lit "\tb") = Defined t2
       /\ process_escape_characters win64 (lit "a\n" ++ lit "\tb")
          = Defined (t1 ++ t2).
Proof.
  assert (Hlast : last (lit "a\n") NUL <> BACKSLASH) by discriminate.
  split; [exact Hlast|]. split; [fits_int|].
  apply (@process_app win64 (lit "a\n") (lit "\tb") Hlast). fits_int.
Defined.

(** ** The spelling table, further *)

(** X13: no literal of the spelling table is under two token types, and
    none is the empty string: a lexeme is a spelling of one token type at
    most. *)
Theorem tk_spellings_unambiguous :
  (forall (t1 t2 : TokenType.t) (lexeme : std_string),
     In lexeme (tk_spellings t1) -> In lexeme (tk_spellings t2) -> t1 = t2)
  /\ (forall (t : TokenType.t) (lexeme : std_string),
        In lexeme (tk_spellings t) -> lexeme <> [])
  /\ NoDup (concat (map indentifiers tk_identifiers)).
Proof.
  assert (Hnodup : NoDup (concat (map indentifiers tk_identifiers))).
  { vm_compute. repeat constructor; cbn; intuition discriminate. }
  split; [|split; [|exact Hnodup]].
  - intros t1 t2 lexeme H1 H2.
    destruct t1; cbn in H1;
      repeat (destruct H1 as [<- | H1]; [|]); try contradiction;
      destruct t2; cbn in H2; try reflexivity; exfalso;
      repeat (destruct H2 as [H2 | H2]; [discriminate H2|]); exact H2.
  - intros t lexeme H.
    destruct t; cbn in H;
      repeat (destruct H as [<- | H]; [discriminate|]); contradiction.
Qed.

(** ** The memory tracker, further *)

(** X14: a run of N calls of [create], from any tracker and any free store,
    leaves the pointers tracked before in their places and tracks after
    them, in the order of the calls, N addresses that are pairwise
    distinct, were not live before the run and are live after it; what was
    live before stays live. *)
Theorem Memory_create_all_tracks (cxx_type : Type) (Ts : list cxx_type) :
  forall (m : Memory.t) (fs : Memory.free_store cxx_type),
  exists ps,
    Memory.pointers (fst (Memory.create_all Ts m fs))
    = Memory.pointers m ++ ps
    /\ length ps = length Ts
    /\ NoDup ps
    /\ (forall p, In p ps -> ~ In p (map fst fs))
    /\ (forall p, In p ps -> In p (map fst (snd (Memory.create_all Ts m fs))))
    /\ incl fs (snd (Memory.create_all Ts m fs)).
Proof.
  induction Ts as [|T Ts IH]; intros m fs; cbn [Memory.create_all].
  { exists []. rewrite app_nil_r. cbn [fst snd].
    repeat split; try constructor; try contradiction. apply incl_refl. }
  unfold Memory.create, Memory.new.
  set (p := Memory.fresh_address fs).
  destruct (IH {| Memory.pointers := Memory.pointers m ++ [p] |}
               ((p, T) :: fs))
    as (ps & Hps & Hlen & Hnodup & Hfresh & Hlive & Hincl).
  cbn [Memory.pointers] in Hps.
  exists (p :: ps). split; [rewrite Hps, <- app_assoc; reflexivity|].
  split; [cbn [length]; rewrite Hlen; reflexivity|].
  split; [|split; [|split]].
  - constructor; [|exact Hnodup].
    intros Hin. apply (Hfresh p Hin). left; reflexivity.
  - intros q [<- | Hq]; [apply fresh_address_not_live|].
    intros Hin. apply (Hfresh q Hq). right; exact Hin.
  - intros q [<- | Hq]; [|apply Hlive, Hq].
    apply in_map_iff. exists (p, T). split; [reflexivity|].
    apply Hincl. left; reflexivity.
  - intros a Ha. apply Hincl. right; exact Ha.
Qed.

(** ** The entry point, further *)

Lemma split_line_last (s : std_string) :
  ~ In NEWLINE s -> split_line s = (s, []).
Proof.
  induction s as [|c s IH]; intros Hs; cbn [split_line]; [reflexivity|].
  destruct (Ascii.eqb_spec c NEWLINE) as [-> | _].
  - exfalso. apply Hs. left; reflexivity.
  - rewrite IH; [reflexivity|]. intros Hin. apply Hs. right; assumption.
Qed.

(** X15: when standard input ends without a newline, and also when it is
    empty, [main] takes what there is as the line: it writes the banner,
    the prompt and [You entered: ] followed by that text and a newline,
    leaves nothing on standard input, writes nothing to the error stream
    and exits with status 0. *)
Theorem main_at_end_of_input
    (GREEN WHITE : Z) (w : world) (s : std_string) :
  ~ In NEWLINE s ->
  stdin w = s ->
  fst (main GREEN WHITE w) = 0%Z
  /\ stdout (snd (main GREEN WHITE w))
     = stdout w ++ banner ++ lit ">>> " ++ lit "You entered: " ++ s ++ endl
  /\ stdin (snd (main GREEN WHITE w)) = []
  /\ stderr (snd (main GREEN WHITE w)) = stderr w.
Proof.
  intros Hs Hin.
  pose proof (main_runs GREEN WHITE w) as (Hret & Hrest & Hout & Herr).
  rewrite Hin, (@split_line_last s Hs) in *. cbn [fst snd] in *.
  repeat split; assumption.
Qed.

(** Empty standard input. *)
Lemma main_at_end_of_input_witness :
  ~ In NEWLINE []
  /\ fst (main 2 7 {| stdin := []; events := [] |}) = 0%Z
  /\ stdout (snd (main 2 7 {| stdin := []; events := [] |}))
     = banner ++ lit ">>> You entered: " ++ endl.
Proof.
  assert (Hs : ~ In NEWLINE []) by (intros []).
  split; [exact Hs|].
  destruct (@main_at_end_of_input 2 7 {| stdin := []; events := [] |} []
              Hs eq_refl) as (Hret & Hout & _).
  split; [exact Hret|]. rewrite Hout. reflexivity.
Defined.
